(** * vscode-restclient: request execution and response normalisation

    A shallow embedding of [HttpClient] (src/httpClient.ts) and of the text
    folding and the method selection of [CurlRequestParser], with the
    properties of the specification proved or refuted against it, and further
    properties read off the code (X1, X2, ...).

    Conventions of the embedding.
    - A JavaScript string is a [string] whose characters are code units
      below 256 (Latin-1), which is what HTTP header names, header values and
      host names are made of.  [toLowerCase], [trim], [indexOf], [substr],
      [split] and [startsWith] follow ECMAScript on that range.
    - An object used as a dictionary and enumerated with [for ... in] is the
      list of its own properties in enumeration order ([JsObject]); an object
      that is only written and read by key is the [gmap string string] of
      its own entries.  The dictionaries the client builds from [{}] are read
      and written through [Object.prototype] ([plain_read], [plain_write]).
    - [null] and [undefined] are [None]; a value is truthy when it is present
      and is not the empty string.
    - Code that can throw returns a [result].
    - The packages the client calls ([url], [encodeurl], [iconv-lite],
      [MimeUtility]) and its reading of certificate files are the fields of
      the class [Platform]; the module [Certificate] models that reading
      itself, over the fields of [Certificate.Files]. *)

From Stdlib Require Import ZArith NArith QArith Strings.Ascii Strings.String Strings.Byte.
From stdpp Require Import base option list strings gmap.

Set Warnings "-clear-no-such-hyp".

(** ** JavaScript strings *)

Module JsString.

Definition code (c : ascii) : N := N_of_ascii c.

Definition in_range (lo hi n : N) : bool := ((lo <=? n) && (n <=? hi))%N.

(** [A-Z] and the upper-case letters of Latin-1 (all of U+00C0..U+00DE
    except the multiplication sign U+00D7) have their lower-case form 32
    code points higher. *)
Definition is_upper (c : ascii) : bool :=
  in_range 65 90 (code c)
  || (in_range 192 222 (code c) && negb (code c =? 215)%N).

Definition lower_char (c : ascii) : ascii :=
  if is_upper c then ascii_of_N (code c + 32) else c.

Fixpoint toLowerCase (s : string) : string :=
  match s with
  | EmptyString => EmptyString
  | String c r => String (lower_char c) (toLowerCase r)
  end.

(** White space and line terminators of ECMAScript below U+0100:
    TAB, LF, VT, FF, CR, SP and NBSP. *)
Definition is_space (c : ascii) : bool :=
  in_range 9 13 (code c) || (code c =? 32)%N || (code c =? 160)%N.

Fixpoint trimStart (s : string) : string :=
  match s with
  | EmptyString => EmptyString
  | String c r => if is_space c then trimStart r else s
  end.

Fixpoint trimEnd (s : string) : string :=
  match s with
  | EmptyString => EmptyString
  | String c r =>
      match trimEnd r with
      | EmptyString => if is_space c then EmptyString else String c EmptyString
      | r' => String c r'
      end
  end.

Definition trim (s : string) : string := trimEnd (trimStart s).

(** [s.indexOf(ch)] for a one-character search string: the position of the
    first occurrence, [-1] when there is none. *)
Fixpoint indexOf (s : string) (ch : ascii) : Z :=
  match s with
  | EmptyString => (-1)%Z
  | String c r =>
      if decide (c = ch) then 0%Z
      else let i := indexOf r ch in
           if (i <? 0)%Z then (-1)%Z else (i + 1)%Z
  end.

Fixpoint drop_chars (n : nat) (s : string) : string :=
  match n, s with
  | O, _ => s
  | S _, EmptyString => EmptyString
  | S n', String _ r => drop_chars n' r
  end.

Fixpoint take_chars (n : nat) (s : string) : string :=
  match n, s with
  | O, _ => EmptyString
  | S _, EmptyString => EmptyString
  | S n', String c r => String c (take_chars n' r)
  end.

(** [s.substr(start, length)] (ECMAScript B.2.3.1); [len = None] is the
    call with one argument. *)
Definition substr (s : string) (start : Z) (len : option Z) : string :=
  let size := Z.of_nat (String.length s) in
  let intStart := if (start <? 0)%Z then Z.max (size + start) 0 else start in
  let intLength := match len with Some l => l | None => size end in
  let resultLength := Z.min (Z.max intLength 0) (size - intStart) in
  if (resultLength <=? 0)%Z then EmptyString
  else take_chars (Z.to_nat resultLength) (drop_chars (Z.to_nat intStart) s).

(** [s.split(sep)] for a one-character separator; never the empty array. *)
Fixpoint split (s : string) (sep : ascii) : list string :=
  match s with
  | EmptyString => [EmptyString]
  | String c r =>
      if decide (c = sep) then EmptyString :: split r sep
      else match split r sep with
           | x :: xs => String c x :: xs
           | [] => [String c EmptyString]
           end
  end.

Definition startsWith (s p : string) : bool := String.prefix p s.

(** [Boolean(s)] for a string or [null]/[undefined]. *)
Definition truthy (v : option string) : bool :=
  match v with
  | Some s => negb (String.eqb s EmptyString)
  | None => false
  end.

End JsString.

Import JsString.

(** ** Objects used as dictionaries *)

(** Own properties in [for ... in] order. *)
Definition JsObject : Type := list (string * string).

(** [o[k]] *)
Fixpoint get (o : JsObject) (k : string) : option string :=
  match o with
  | [] => None
  | (k', v) :: rest => if decide (k' = k) then Some v else get rest k
  end.

(** [o[k] = v]: an existing property keeps its place in the enumeration, a
    new one is enumerated last. *)
Fixpoint set (o : JsObject) (k v : string) : JsObject :=
  match o with
  | [] => [(k, v)]
  | (k', v') :: rest =>
      if decide (k' = k) then (k', v) :: rest else (k', v') :: set rest k v
  end.

Definition keys (o : JsObject) : list string := map fst o.

(** ** Exceptions *)

Inductive Exception : Type :=
| TypeError (what : string)
| DecodeError (what : string).

Inductive result (A : Type) : Type :=
| Ok (a : A)
| Throw (e : Exception).
Arguments Ok {A} a.
Arguments Throw {A} e.

Definition bind {A B} (r : result A) (k : A -> result B) : result B :=
  match r with
  | Ok a => k a
  | Throw e => Throw e
  end.

(** ** HttpClient.getHeaderValue *)

Fixpoint getHeaderValue_loop (headers : JsObject) (ks : list string)
    (headerName : string) : option string :=
  match ks with
  | [] => None
  | key :: rest =>
      if decide (toLowerCase key = toLowerCase headerName)
      then get headers key
      else getHeaderValue_loop headers rest headerName
  end.

Definition getHeaderValue (headers : option JsObject) (headerName : string)
    : option string :=
  match headers with
  | Some h => getHeaderValue_loop h (keys h) headerName
  | None => None
  end.

(** ** The packages the client relies on *)

(** What [url.parse] returns, as far as the client reads it. *)
Record Url : Type := { hostname : option string; port : option string }.

Record HostCertificate : Type := {
  cert : option (list byte);
  key : option (list byte);
  pfx : option (list byte);
  passphrase : option string
}.

Class Platform : Type := {
  (** [url.parse] *)
  url_parse : string -> Url;
  (** [encodeurl] *)
  encodeUrl : string -> string;
  (** [iconv.decode(buffer, encoding)]; [None] when it throws *)
  iconv_decode : list byte -> string -> option string;
  (** [MimeUtility.parse(contentType).charset] *)
  mime_charset : string -> option string;
  (** [getRequestCertificate] (lines 171-203), which looks the host up in
      the settings and reads its certificate files from disk, and throws when
      a file cannot be read; none of the properties below is about it *)
  getRequestCertificate : string -> result HostCertificate
}.

(** ** Models of the request, the settings and the transport options *)

Record RestClientSettings : Type := {
  timeoutInMilliseconds : Z;
  followRedirect : bool;
  rememberCookiesForSubsequentRequests : bool;
  proxy : option string;
  proxyStrictSSL : bool;
  excludeHostsForProxy : option (list string);
  defaultUserAgent : string
}.

Record HttpRequest : Type := {
  req_method : string;
  req_url : string;
  req_headers : option JsObject;
  req_body : option string
}.

Record Auth : Type := { user : string; pass : string; sendImmediately : bool }.

(** The option bundle handed to [request]; [encoding: null], [time: true],
    [gzip: true] and [forever: true] are constants of the source. *)
Record Options : Type := {
  opt_url : string;
  opt_headers : JsObject;
  opt_method : string;
  opt_body : option string;
  opt_timeout : Z;
  opt_followRedirect : bool;
  opt_jar : bool;
  opt_auth : option Auth;
  opt_certificate : HostCertificate;
  opt_proxy : option string;
  opt_strictSSL : bool
}.

(** ** HttpClient.ignoreProxy *)

(** [Array.from(new Set(l))]: the first occurrence of each element, in
    order. *)
Fixpoint uniq_from (seen l : list string) : list string :=
  match l with
  | [] => []
  | x :: rest =>
      if decide (x ∈ seen) then uniq_from seen rest
      else x :: uniq_from (x :: seen) rest
  end.

Definition uniq (l : list string) : list string := uniq_from [] l.

Fixpoint ignoreProxy_loop (hostName : string) (port : option string)
    (excludeHostsProxyList : list string) : bool :=
  match excludeHostsProxyList with
  | [] => false
  | eh :: rest =>
      let urlParts := split eh ":" in
      if negb (truthy port) then
        if decide (length urlParts = 1%nat ∧ urlParts !! 0%nat = Some hostName)
        then true
        else ignoreProxy_loop hostName port rest
      else
        if decide (length urlParts = 1%nat ∧ urlParts !! 0%nat = Some hostName)
        then true
        else if decide (length urlParts = 2%nat
                        ∧ urlParts !! 0%nat = Some hostName
                        ∧ urlParts !! 1%nat = port)
        then true
        else ignoreProxy_loop hostName port rest
  end.

Definition ignoreProxy `{Platform} (requestUrl : string)
    (excludeHostsForProxy : option (list string)) : result bool :=
  match excludeHostsForProxy with
  | None => Ok false
  | Some [] => Ok false
  | Some l =>
      let resolvedUrl := url_parse requestUrl in
      match hostname resolvedUrl with
      | None => Throw (TypeError "Cannot read property 'toLowerCase' of null")
      | Some h =>
          let hostName := toLowerCase h in
          let port := port resolvedUrl in
          let excludeHostsProxyList := uniq (map toLowerCase l) in
          Ok (ignoreProxy_loop hostName port excludeHostsProxyList)
      end
  end.

(** ** HttpClient.send: building the transport options (lines 29-78) *)

(** Lines 46-47: [start] and [scheme]. *)
Definition send_auth_scheme (authorization : string) : string :=
  let start := indexOf authorization " " in
  substr authorization 0 (Some start).

(** Line 49: [params]. *)
Definition send_auth_params (authorization : string) : list string :=
  let start := indexOf authorization " " in
  split (trim (substr authorization start None)) " ".

(** Lines 43-58: the credentials taken from an [Authorization] value. *)
Definition send_auth (authorization : option string) : option Auth :=
  match authorization with
  | Some a =>
      if truthy authorization then
        let scheme := send_auth_scheme a in
        if decide (scheme = "Digest" ∨ scheme = "Basic") then
          let params := send_auth_params a in
          match params with
          | [p0; p1] =>
              Some {| user := p0; pass := p1;
                      sendImmediately := bool_decide (scheme = "Basic") |}
          | _ => None
          end
        else None
      else None
  | None => None
  end.

(** Line 76: whether the default [User-Agent] is written. *)
Definition injects_userAgent (headers : JsObject) : bool :=
  negb (truthy (getHeaderValue (Some headers) "User-Agent")).

(** Lines 75-78. *)
Definition send_userAgent (headers : JsObject) (defaultUserAgent : string)
    : JsObject :=
  if injects_userAgent headers
  then set headers "User-Agent" defaultUserAgent
  else headers.

(** The options object when [request] is called.  [options.headers] is the
    request's own header object, so the default [User-Agent] is written into
    the request as well. *)
Definition send_options `{Platform} (settings : RestClientSettings)
    (httpRequest : HttpRequest) : result Options :=
  let authorization := getHeaderValue (req_headers httpRequest) "Authorization" in
  let auth := send_auth authorization in
  bind (getRequestCertificate (req_url httpRequest)) (fun certificate =>
  bind (ignoreProxy (req_url httpRequest) (excludeHostsForProxy settings))
    (fun ignore =>
       let proxy := if ignore then None else proxy settings in
       let strictSSL := if truthy proxy then proxyStrictSSL settings else false in
       let headers := match req_headers httpRequest with
                      | Some h => h
                      | None => []
                      end in
       Ok {| opt_url := encodeUrl (req_url httpRequest);
             opt_headers := send_userAgent headers (defaultUserAgent settings);
             opt_method := req_method httpRequest;
             opt_body := req_body httpRequest;
             opt_timeout := timeoutInMilliseconds settings;
             opt_followRedirect := followRedirect settings;
             opt_jar := rememberCookiesForSubsequentRequests settings;
             opt_auth := auth;
             opt_certificate := certificate;
             opt_proxy := proxy;
             opt_strictSSL := strictSSL |})).

(** ** HttpClient.send: the completion callback (lines 83-146) *)

(** The error object of the transport; [message] may be missing. *)
Record Error : Type := { err_code : string; message : option string }.

Record Response : Type := {
  statusCode : Z;
  statusMessage : string;
  httpVersion : string;
  headers : JsObject;
  rawHeaders : list string;
  elapsedTime : Z
}.

(** [body] after lines 105-113: the decoded text, or still the buffer it was
    when the only decoding attempted threw. *)
Inductive Body : Type :=
| Text (s : string)
| Buffer (b : list byte).

(** The arguments of [new HttpResponse(...)], in order; the timing phases
    are copied from the response one by one and are left out. *)
Record HttpResponse : Type := {
  res_statusCode : Z;
  res_statusMessage : string;
  res_httpVersion : string;
  res_headers : gmap string string;
  res_body : Body;
  res_elapsedTime : Z;
  res_url : string;
  res_size : Z;
  res_headersSize : Z;
  res_bodyStream : list byte
}.

Inductive Outcome : Type :=
| Resolved (r : HttpResponse)
| Rejected (e : Error)
| Uncaught (e : Exception).

Definition header_token_error : string :=
  "Header name must be a valid HTTP Token".

Definition header_format_explanation : string :=
  "Header must be in 'header name: header value' format, " +:+
  "please also make sure there is a blank line between headers and body".

(** Lines 84-93. *)
Definition send_error (error : Error) : Error :=
  match message error with
  | Some m =>
      if truthy (message error) && startsWith m header_token_error
      then {| err_code := err_code error;
             message := Some header_format_explanation |}
      else error
  | None => error
  end.

(** Lines 95-103. *)
Definition send_encoding `{Platform} (response : Response) : string :=
  let contentType := getHeaderValue (Some (headers response)) "Content-Type" in
  let encoding :=
    match contentType with
    | Some ct => if truthy contentType then mime_charset ct else None
    | None => None
    end in
  match encoding with
  | Some e => if truthy encoding then e else "utf8"
  | None => "utf8"
  end.

(** Lines 105-113: [try { decode } catch { if not utf8, decode as utf8 }]. *)
Definition send_decode `{Platform} (body : list byte) (encoding : string)
    : result Body :=
  match iconv_decode body encoding with
  | Some s => Ok (Text s)
  | None =>
      if decide (encoding ≠ "utf8") then
        match iconv_decode body "utf8" with
        | Some s => Ok (Text s)
        | None => Throw (DecodeError "utf8")
        end
      else Ok (Buffer body)
  end.

(** ** Plain objects

    [headersDic] and [adjustedResponseHeaders] start as [{}], an object with
    [Object.prototype] behind it.  A [gmap] holds the own entries; a read
    that finds no own entry goes on to [Object.prototype], and a write under
    [__proto__] reaches the setter of [Object.prototype], which ignores a
    string. *)

(** The methods of [Object.prototype]. *)
Definition prototype_methods : list string :=
  ["toString"; "toLocaleString"; "valueOf"; "hasOwnProperty";
   "isPrototypeOf"; "propertyIsEnumerable"; "__defineGetter__";
   "__defineSetter__"; "__lookupGetter__"; "__lookupSetter__"].

(** [String(Object.prototype[k])], as V8 prints it, for the names that
    [Object.prototype] defines: [constructor] is the function [Object],
    [__proto__] reads as [Object.prototype] itself. *)
Definition inherited (k : string) : option string :=
  if decide (k = "constructor")
  then Some "function Object() { [native code] }"
  else if decide (k = "__proto__") then Some "[object Object]"
  else if decide (k ∈ prototype_methods)
  then Some ("function " +:+ k +:+ "() { [native code] }")
  else None.

(** What [o[k]] evaluates to. *)
Inductive Property : Type :=
| Own (value : string)
| Inherited (printed : string)
| Absent.

(** [o[k]] *)
Definition plain_read (o : gmap string string) (k : string) : Property :=
  match o !! k with
  | Some value => Own value
  | None =>
      match inherited k with
      | Some printed => Inherited printed
      | None => Absent
      end
  end.

(** [Boolean(p)]: a function or an object is truthy. *)
Definition property_truthy (p : Property) : bool :=
  match p with
  | Own value => truthy (Some value)
  | Inherited _ => true
  | Absent => false
  end.

(** [p] used as a property key. *)
Definition property_key (p : Property) : string :=
  match p with
  | Own value => value
  | Inherited printed => printed
  | Absent => "undefined"
  end.

(** [o[k] = v] for a string [v]. *)
Definition plain_write (o : gmap string string) (k v : string)
    : gmap string string :=
  if decide (k = "__proto__") then o else <[k := v]> o.

(** ** HttpClient.getResponseRawHeaderNames *)

Definition getResponseRawHeaderNames (rawHeaders : list string)
    : gmap string string :=
  foldl (fun result header => plain_write result (toLowerCase header) header)
        ∅ rawHeaders.

(** One turn of the loop of lines 118-125. *)
Definition adjust_step (headersDic : gmap string string) (headers : JsObject)
    (adjustedResponseHeaders : gmap string string) (header : string)
    : gmap string string :=
  match get headers header with
  | Some value =>
      if property_truthy (plain_read headersDic header) then
        let adjustedHeaderName :=
          property_key (plain_read headersDic header) in
        plain_write
          (plain_write adjustedResponseHeaders
             (property_key (plain_read headersDic header)) value)
          adjustedHeaderName value
      else plain_write adjustedResponseHeaders header value
  | None => adjustedResponseHeaders (* not reached: [header] is a key *)
  end.

(** Lines 115-125. *)
Definition send_adjustHeaders (headers : JsObject) (rawHeaders : list string)
    : gmap string string :=
  let headersDic := getResponseRawHeaderNames rawHeaders in
  foldl (adjust_step headersDic headers) ∅ (keys headers).

(** The callback given to [request]; [size] and [headersSize] are the
    counters filled by the [data] and [response] events. *)
Definition send_callback `{Platform} (httpRequest : HttpRequest)
    (size headersSize : Z) (error : option Error) (response : Response)
    (body : list byte) : Outcome :=
  match error with
  | Some e => Rejected (send_error e)
  | None =>
      match send_decode body (send_encoding response) with
      | Throw e => Uncaught e
      | Ok decoded =>
          Resolved {|
            res_statusCode := statusCode response;
            res_statusMessage := statusMessage response;
            res_httpVersion := httpVersion response;
            res_headers :=
              send_adjustHeaders (headers response) (rawHeaders response);
            res_body := decoded;
            res_elapsedTime := elapsedTime response;
            res_url := req_url httpRequest;
            res_size := size;
            res_headersSize := headersSize;
            res_bodyStream := body |}
      end
  end.

(** ** CurlRequestParser.parseHttpRequest: body and method (lines 37-46) *)

Module Curl.

(** The values [yargs] stores in [argv]: a flag that is absent, a flag
    without a value, a numeric or textual value, or the values of a
    repeated flag.  Of a number only whether it is zero is looked at. *)
Inductive JsValue : Type :=
| Undefined
| Bool (b : bool)
| Number (z : Z)
| Str (s : string)
| Arr (l : list string).

Definition truthy (v : JsValue) : bool :=
  match v with
  | Undefined => false
  | Bool b => b
  | Number z => negb (z =? 0)%Z
  | Str s => negb (String.eqb s EmptyString)
  | Arr _ => true
  end.

(** [a || b] *)
Definition or (a b : JsValue) : JsValue := if truthy a then a else b.

Record ParsedArguments : Type := {
  arg_X : JsValue;
  arg_request : JsValue;
  arg_d : JsValue;
  arg_data : JsValue;
  arg_data_binary : JsValue
}.

Definition parse_body (parsedArguments : ParsedArguments) : JsValue :=
  or (or (arg_d parsedArguments) (arg_data parsedArguments))
     (arg_data_binary parsedArguments).

(** The cast [<string>] of line 41 converts nothing: the method is the value
    as [yargs] parsed it. *)
Definition parse_method (parsedArguments : ParsedArguments) : JsValue :=
  let body := parse_body parsedArguments in
  let method := or (arg_X parsedArguments) (arg_request parsedArguments) in
  if negb (truthy method)
  then (if truthy body then Str "POST" else Str "GET")
  else method.

End Curl.

(** ** A platform to run the model on

    [sample_url_parse] agrees with [url.parse] on URLs of the form
    [scheme://host/path] and [scheme://host:port/path]; [sample_decode] knows
    the encodings [utf8] and [latin1] and, like [iconv-lite], throws on a
    name it does not know. *)

Definition sample_url_parse (u : string) : Url :=
  match split u "/" with
  | _ :: _ :: authority :: _ =>
      match split authority ":" with
      | [h] => {| hostname := Some (toLowerCase h); port := None |}
      | [h; p] => {| hostname := Some (toLowerCase h);
                     port := if truthy (Some p) then Some p else None |}
      | _ => {| hostname := None; port := None |}
      end
  | _ => {| hostname := None; port := None |}
  end.

Definition sample_decode (body : list byte) (encoding : string)
    : option string :=
  if decide (encoding = "utf8" ∨ encoding = "latin1")
  then Some (string_of_list_ascii (map ascii_of_byte body))
  else None.

Definition no_certificate : HostCertificate :=
  {| cert := None; key := None; pfx := None; passphrase := None |}.

Definition sample_platform : Platform :=
  {| url_parse := sample_url_parse;
     encodeUrl := fun u => u;
     iconv_decode := sample_decode;
     mime_charset := fun _ => None;
     getRequestCertificate := fun _ => Ok no_certificate |}.

Definition sample_settings : RestClientSettings :=
  {| timeoutInMilliseconds := 0;
     followRedirect := true;
     rememberCookiesForSubsequentRequests := false;
     proxy := Some "http://proxy.local:3128";
     proxyStrictSSL := true;
     excludeHostsForProxy := Some ["example.com"; "foo.com:8080"];
     defaultUserAgent := "vscode-restclient" |}.

Definition sample_request (url : string) (authorization : string)
    : HttpRequest :=
  {| req_method := "GET";
     req_url := url;
     req_headers := Some [("Accept", "*/*"); ("authorization", authorization)];
     req_body := None |}.

(** A platform whose [MimeUtility] reads the charset [x-unknown], which
    [sample_decode] does not know, and a response that declares it. *)
Definition charset_platform : Platform :=
  {| url_parse := sample_url_parse;
     encodeUrl := fun u => u;
     iconv_decode := sample_decode;
     mime_charset := fun contentType =>
       if bool_decide (contentType = "text/plain; charset=x-unknown")
       then Some "x-unknown" else None;
     getRequestCertificate := fun _ => Ok no_certificate |}.

Definition sample_response : Response :=
  {| statusCode := 200;
     statusMessage := "OK";
     httpVersion := "1.1";
     headers := [("content-type", "text/plain; charset=x-unknown")];
     rawHeaders := ["Content-Type"; "text/plain; charset=x-unknown"];
     elapsedTime := 12 |}.

(** ** Vocabulary of the properties *)

(** The values that JavaScript takes for false among those of [argv]:
    [undefined], [false], [0] and the empty string. *)
Definition curl_falsy (v : Curl.JsValue) : Prop :=
  v = Curl.Undefined ∨ v = Curl.Bool false ∨ v = Curl.Number 0
  ∨ v = Curl.Str EmptyString.

(** [s.includes(ch)] *)
Fixpoint includes (s : string) (ch : ascii) : bool :=
  match s with
  | EmptyString => false
  | String c r => bool_decide (c = ch) || includes r ch
  end.

(** [l.join(sep)] *)
Fixpoint join (l : list string) (sep : ascii) : string :=
  match l with
  | [] => EmptyString
  | x :: rest =>
      match rest with
      | [] => x
      | _ => x +:+ String sep (join rest sep)
      end
  end.

(** Folding of the ASCII letters only. *)
Definition ascii_lower_char (c : ascii) : ascii :=
  if in_range 65 90 (code c) then ascii_of_N (code c + 32) else c.

Fixpoint ascii_fold (s : string) : string :=
  match s with
  | EmptyString => EmptyString
  | String c r => String (ascii_lower_char c) (ascii_fold r)
  end.

(** Two names are equal up to ASCII case. *)
Definition ascii_case_eq (a b : string) : Prop := ascii_fold a = ascii_fold b.

(** Two names are the same for the client: equal once lower-cased. *)
Definition same_name (a b : string) : Prop := toLowerCase a = toLowerCase b.

#[global] Instance same_name_dec a b : Decision (same_name a b) :=
  decide (toLowerCase a = toLowerCase b).

(** The value of the first property, in enumeration order, whose name is
    [headerName] up to case. *)
Fixpoint first_match (headers : JsObject) (headerName : string)
    : option string :=
  match headers with
  | [] => None
  | (k, v) :: rest =>
      if decide (same_name k headerName) then Some v
      else first_match rest headerName
  end.

Definition starts_with_space (s : string) : bool :=
  match s with
  | EmptyString => false
  | String c _ => is_space c
  end.

Fixpoint ends_with_space (s : string) : bool :=
  match s with
  | EmptyString => false
  | String c r =>
      match r with
      | EmptyString => is_space c
      | _ => ends_with_space r
      end
  end.

(** One of the space-separated parts of an [Authorization] shorthand: not
    empty, without a space, and with no white space at either end. *)
Definition component (s : string) : Prop :=
  s ≠ EmptyString ∧ includes s " " = false
  ∧ starts_with_space s = false ∧ ends_with_space s = false.

(** An exclusion entry, already in lower case, matches a request: an entry
    without a port is the host name of the request; an entry [host:port]
    names both the host and the port of the request. *)
Definition entry_matches (hostName : string) (port : option string)
    (entry : string) : Prop :=
  (includes entry ":" = false ∧ entry = hostName)
  ∨ (∃ h p, entry = h +:+ String ":" p
            ∧ includes h ":" = false ∧ includes p ":" = false
            ∧ h = hostName ∧ p ≠ EmptyString ∧ port = Some p).

(** The name under which the loop of lines 118-125 stores a header. *)
Definition restored_name (headersDic : gmap string string) (header : string)
    : string :=
  if property_truthy (plain_read headersDic header)
  then property_key (plain_read headersDic header)
  else header.

(** A key of the transport's headers that the dictionary of raw names
    resolves without [Object.prototype]: it is not [__proto__], and it is the
    lower-case form of an element of the raw list or is no name of
    [Object.prototype]. *)
Definition plain_key (rawHeaders : list string) (k : string) : Prop :=
  k ≠ "__proto__"
  ∧ ((∃ raw, raw ∈ rawHeaders ∧ toLowerCase raw = k) ∨ inherited k = None).

(** The keys of the transport's headers as [http] delivers them: lower-case,
    and resolved without [Object.prototype]. *)
Definition transport_keys (rawHeaders : list string) (headers : JsObject)
    : Prop :=
  Forall (fun k => toLowerCase k = k ∧ plain_key rawHeaders k) (keys headers).

(** Line 86: the error is the header-validation error of the transport. *)
Definition is_header_token_error (error : Error) : bool :=
  match message error with
  | Some m => startsWith m header_token_error
  | None => false
  end.

(** ** HttpClient.send: the size counters (lines 80-81, 147-155)

    [size] and [headersSize] are JavaScript numbers.  [size] only ever receives
    integers.  [headersSize] receives an integer and then half an integer; both
    are exact in a double, and are modelled in [Q]. *)

(** The [data] event. *)
Definition on_data (size : Z) (data : list byte) : Z :=
  (size + Z.of_nat (length data))%Z.

(** The [response] event; [rawHeaders] may be missing. *)
Definition on_response (headersSize : Q) (rawHeaders : option (list string))
    : Q :=
  match rawHeaders with
  | Some raw =>
      let lengths := map (fun h => Z.of_nat (String.length h)) raw in
      let headersSize := (headersSize + inject_Z (foldl Z.add 0%Z lengths))%Q in
      (headersSize + (Z.of_nat (length raw) # 2))%Q
  | None => headersSize
  end.

(** The counters after the events of one exchange, from [size = 0]. *)
Definition received_size (chunks : list (list byte)) : Z :=
  foldl on_data 0%Z chunks.

(** ** CurlRequestParser: folding the text of a command (lines 11-12, 49-55) *)

Module CurlText.

Definition is_line_break (c : ascii) : bool :=
  bool_decide (c = "013"%char) || bool_decide (c = "010"%char).

(** [text.replace(/\\\r|\\\n/g, '')]: every backslash that is followed by a
    carriage return or a line feed is removed together with that character;
    the scan goes on after the removed pair. *)
Fixpoint mergeIntoSingleLine (text : string) : string :=
  match text with
  | EmptyString => EmptyString
  | String c rest =>
      match rest with
      | String d rest' =>
          if bool_decide (c = "\"%char) && is_line_break d
          then mergeIntoSingleLine rest'
          else String c (mergeIntoSingleLine rest)
      | EmptyString => String c EmptyString
      end
  end.

(** [text.replace(/\s{2,}/g, ' ')]: [in_run] says that the scan is inside a
    run of white space that has already been replaced by one space. *)
Fixpoint merge_spaces (in_run : bool) (text : string) : string :=
  match text with
  | EmptyString => EmptyString
  | String c rest =>
      if in_run then
        if is_space c then merge_spaces true rest
        else String c (merge_spaces false rest)
      else
        match rest with
        | String d _ =>
            if is_space c && is_space d
            then String " " (merge_spaces true rest)
            else String c (merge_spaces false rest)
        | EmptyString => String c EmptyString
        end
  end.

Definition mergeMultipleSpacesIntoSingle (text : string) : string :=
  merge_spaces false text.

(** Lines 11-12: [requestText]. *)
Definition requestText (requestRawText : string) : string :=
  mergeMultipleSpacesIntoSingle (mergeIntoSingleLine (trim requestRawText)).

End CurlText.

(** ** HttpClient.getRequestCertificate and resolveCertificateFullPath
       (lines 171-203, 244-273)

    The functions read the disk and show warnings.  [path], [fs],
    [workspace] and [window] are the fields of [Files]; a computation yields
    the warnings shown, in order, and then a value or an exception. *)

Module Certificate.

(** An entry of [hostCertificates] in the settings. *)
Record HostCertificatePaths : Type := {
  path_cert : option string;
  path_key : option string;
  path_pfx : option string;
  path_passphrase : option string
}.

Class Files : Type := {
  path_isAbsolute : string -> bool;
  path_join : string -> string -> string;
  path_dirname : string -> string;
  fs_existsSync : string -> bool;
  (** throws when the file cannot be read *)
  fs_readFileSync : string -> result (list byte);
  workspace_rootPath : option string;
  (** [window.activeTextEditor.document.fileName]; [None] when no editor is
      active *)
  activeTextEditor_fileName : option string
}.

Definition Effect (A : Type) : Type := (list string * result A)%type.

Definition ret {A} (a : A) : Effect A := ([], Ok a).

Definition and_then {A B} (m : Effect A) (k : A -> Effect B) : Effect B :=
  match m with
  | (ws, Ok a) => let '(ws', r) := k a in (ws ++ ws', r)
  | (ws, Throw e) => (ws, Throw e)
  end.

(** [window.showWarningMessage(...)] *)
Definition missing_path_warning (absoluteOrRelativePath certName : string)
    : string :=
  "Certificate path " +:+ absoluteOrRelativePath +:+ " of " +:+ certName
  +:+ " doesn't exist, please make sure it exists.".

Definition resolveCertificateFullPath `{Files}
    (absoluteOrRelativePath certName : string) : Effect (option string) :=
  let warn := missing_path_warning absoluteOrRelativePath certName in
  if path_isAbsolute absoluteOrRelativePath then
    if negb (fs_existsSync absoluteOrRelativePath)
    then ([warn], Ok None)
    else ret (Some absoluteOrRelativePath)
  else
    match workspace_rootPath with
    | Some rootPath =>
        if truthy workspace_rootPath then
          let absolutePath := path_join rootPath absoluteOrRelativePath in
          if fs_existsSync absolutePath then ret (Some absolutePath)
          else ([warn], Ok None)
        else
          match activeTextEditor_fileName with
          | Some fileName =>
              let absolutePath :=
                path_join (path_dirname fileName) absoluteOrRelativePath in
              if fs_existsSync absolutePath then ret (Some absolutePath)
              else ([warn], Ok None)
          | None =>
              ([], Throw (TypeError "Cannot read property 'document' of undefined"))
          end
    | None =>
        match activeTextEditor_fileName with
        | Some fileName =>
            let absolutePath :=
              path_join (path_dirname fileName) absoluteOrRelativePath in
            if fs_existsSync absolutePath then ret (Some absolutePath)
            else ([warn], Ok None)
        | None =>
            ([], Throw (TypeError "Cannot read property 'document' of undefined"))
        end
    end.

(** Lines 181-186, and likewise 187-192 and 193-198: one of [cert], [key]
    and [pfx]. *)
Definition load `{Files} (configured : option string) (certName : string)
    : Effect (option (list byte)) :=
  match configured with
  | Some configuredPath =>
      if truthy configured then
        and_then (resolveCertificateFullPath configuredPath certName)
          (fun resolved =>
             match resolved with
             | Some certPath =>
                 if truthy resolved then
                   match fs_readFileSync certPath with
                   | Ok bytes => ret (Some bytes)
                   | Throw e => ([], Throw e)
                   end
                 else ret None
             | None => ret None
             end)
      else ret None
  | None => ret None
  end.

(** The key under which the host is looked up: [hostname:port] when the URL
    has a port, [hostname] otherwise; a missing host name reads [null]. *)
Definition host_key (resolvedUrl : Url) : string :=
  let hostName := match hostname resolvedUrl with
                  | Some h => h
                  | None => "null"
                  end in
  match port resolvedUrl with
  | Some p => if truthy (port resolvedUrl)
              then hostName +:+ ":" +:+ p else hostName
  | None => hostName
  end.

Definition getRequestCertificate `{Platform} `{Files}
    (hostCertificates : gmap string HostCertificatePaths)
    (requestUrl : string) : Effect HostCertificate :=
  let resolvedUrl := url_parse requestUrl in
  let host := host_key resolvedUrl in
  match hostCertificates !! host with
  | Some certificate =>
      and_then (load (path_cert certificate) "cert") (fun cert =>
      and_then (load (path_key certificate) "key") (fun key =>
      and_then (load (path_pfx certificate) "pfx") (fun pfx =>
      ret {| cert := cert; key := key; pfx := pfx;
             passphrase := path_passphrase certificate |})))
  | None => ret no_certificate
  end.

(** A disk with one certificate and one key below the workspace root. *)
Definition sample_files : Files :=
  {| path_isAbsolute := fun p => startsWith p "/";
     path_join := fun a b => a +:+ "/" +:+ b;
     path_dirname := fun _ => "/home/me/requests";
     fs_existsSync := fun p =>
       bool_decide (p = "/work/certs/client.crt" ∨ p = "/work/certs/client.key");
     fs_readFileSync := fun p =>
       if bool_decide (p = "/work/certs/client.crt") then Ok [x01; x02]
       else if bool_decide (p = "/work/certs/client.key") then Ok [x03]
       else Throw (TypeError "ENOENT");
     workspace_rootPath := Some "/work";
     activeTextEditor_fileName := None |}.

Definition sample_hostCertificates : gmap string HostCertificatePaths :=
  {[ "example.com:8443" :=
       {| path_cert := Some "certs/client.crt";
          path_key := Some "/work/certs/client.key";
          path_pfx := Some "certs/missing.pfx";
          path_passphrase := Some "secret" |} ]}.

End Certificate.

(** ** Vocabulary of the further properties *)

(** How often [ch] occurs in [s]. *)
Fixpoint count_char (s : string) (ch : ascii) : nat :=
  match s with
  | EmptyString => 0%nat
  | String c r => ((if bool_decide (c = ch) then 1 else 0) + count_char r ch)%nat
  end.

(** Two white-space characters stand side by side somewhere in [s]. *)
Fixpoint adjacent_spaces (s : string) : bool :=
  match s with
  | EmptyString => false
  | String c r => (is_space c && starts_with_space r) || adjacent_spaces r
  end.

Definition starts_with_line_break (s : string) : bool :=
  match s with
  | EmptyString => false
  | String c _ => CurlText.is_line_break c
  end.

(** The raw header list of [pairs] of a name and a value, as the transport
    delivers it: name, value, name, value, ... *)
Definition raw_of_pairs (pairs : list (string * string)) : list string :=
  flat_map (fun nv => [nv.1; nv.2]) pairs.

(** The characters of the header lines, with one more for each line. *)
Definition header_chars (pairs : list (string * string)) : Z :=
  foldr (fun nv n =>
           (Z.of_nat (String.length nv.1) + Z.of_nat (String.length nv.2)
            + 1 + n)%Z) 0%Z pairs.

(** ** Strings *)

#[local] Arguments String.append !_ _ / : simpl nomatch.

Lemma lower_char_idem c : lower_char (lower_char c) = lower_char c.
Proof. destruct c as [[] [] [] [] [] [] [] []]; vm_compute; reflexivity. Qed.

Lemma toLowerCase_idem s : toLowerCase (toLowerCase s) = toLowerCase s.
Proof.
  induction s as [|c r IH]; simpl; [done|].
  by rewrite lower_char_idem, IH.
Qed.

Lemma lower_char_ascii c : lower_char (ascii_lower_char c) = lower_char c.
Proof. destruct c as [[] [] [] [] [] [] [] []]; vm_compute; reflexivity. Qed.

Lemma toLowerCase_ascii_fold s : toLowerCase (ascii_fold s) = toLowerCase s.
Proof.
  induction s as [|c r IH]; simpl; [done|].
  by rewrite lower_char_ascii, IH.
Qed.

Lemma ascii_case_eq_same_name a b : ascii_case_eq a b → same_name a b.
Proof.
  unfold ascii_case_eq, same_name. intros E.
  by rewrite <- (toLowerCase_ascii_fold a), <- (toLowerCase_ascii_fold b), E.
Qed.

Lemma indexOf_not_included s ch : includes s ch = false → indexOf s ch = (-1)%Z.
Proof.
  induction s as [|c r IH]; simpl; [done|].
  intros H. apply orb_false_iff in H as [Hc Hr].
  apply bool_decide_eq_false in Hc.
  destruct (decide (c = ch)); [done|]. by rewrite (IH Hr).
Qed.

Lemma indexOf_app s ch r :
  includes s ch = false →
  indexOf (s +:+ String ch r) ch = Z.of_nat (String.length s).
Proof.
  induction s as [|c s IH]; simpl.
  - intros _. by destruct (decide (ch = ch)).
  - intros H. apply orb_false_iff in H as [Hc Hr].
    apply bool_decide_eq_false in Hc.
    destruct (decide (c = ch)); [done|]. rewrite (IH Hr).
    destruct (Z.ltb_spec (Z.of_nat (String.length s)) 0); lia.
Qed.

Lemma take_chars_app s r : take_chars (String.length s) (s +:+ r) = s.
Proof. induction s as [|c s IH]; simpl; [by destruct r | by rewrite IH]. Qed.

Lemma drop_chars_app s r : drop_chars (String.length s) (s +:+ r) = r.
Proof. induction s as [|c s IH]; simpl; done. Qed.

Lemma take_chars_all n s : (String.length s ≤ n)%nat → take_chars n s = s.
Proof.
  revert n. induction s as [|c s IH]; intros [|n] H; simpl in *; try done; try lia.
  rewrite IH; [done | lia].
Qed.

Lemma string_length_app a b :
  String.length (a +:+ b) = (String.length a + String.length b)%nat.
Proof. induction a as [|c a IH]; simpl; [done | by rewrite IH]. Qed.

Ltac case_Zcompare :=
  repeat match goal with
    | |- context [Z.ltb ?x ?y] => destruct (Z.ltb_spec x y)
    | |- context [Z.leb ?x ?y] => destruct (Z.leb_spec x y)
    end.

Lemma substr_scheme s r :
  includes s " " = false →
  send_auth_scheme (s +:+ String " " r) = s.
Proof.
  intros H. unfold send_auth_scheme, substr. rewrite (indexOf_app _ _ _ H).
  rewrite string_length_app. simpl String.length.
  case_Zcompare; try lia.
  - destruct s; [done | simpl in *; lia].
  - replace (Z.to_nat _) with (String.length s) by lia.
    simpl. apply take_chars_app.
Qed.

Lemma substr_rest s r :
  includes s " " = false →
  substr (s +:+ String " " r) (indexOf (s +:+ String " " r) " ") None
  = String " " r.
Proof.
  intros H. unfold substr. rewrite (indexOf_app _ _ _ H).
  rewrite string_length_app. simpl String.length.
  case_Zcompare; try lia.
  rewrite Nat2Z.id, drop_chars_app. apply take_chars_all. simpl. lia.
Qed.

Lemma substr_no_scheme a : includes a " " = false → send_auth_scheme a = EmptyString.
Proof.
  intros H. unfold send_auth_scheme, substr.
  rewrite (indexOf_not_included _ _ H).
  case_Zcompare; try lia; done.
Qed.

Lemma trimEnd_id s :
  s ≠ EmptyString → ends_with_space s = false → trimEnd s = s.
Proof.
  induction s as [|c r IH]; [done|]. intros _ He.
  destruct r as [|c' r']; [simpl in *; by rewrite He|].
  change (trimEnd (String c (String c' r')))
    with (match trimEnd (String c' r') with
          | EmptyString =>
              if is_space c then EmptyString else String c EmptyString
          | r0 => String c r0
          end).
  by rewrite IH.
Qed.

Lemma trimEnd_app a b :
  trimEnd b ≠ EmptyString → trimEnd (a +:+ b) = a +:+ trimEnd b.
Proof.
  intros Hb. induction a as [|c a IH]; simpl; [done|].
  rewrite IH. destruct a; simpl; [|done].
  by destruct (trimEnd b).
Qed.

Lemma trimEnd_cons c r :
  trimEnd r ≠ EmptyString → trimEnd (String c r) = String c (trimEnd r).
Proof. simpl. by destruct (trimEnd r). Qed.

Lemma trimStart_app a b :
  a ≠ EmptyString → starts_with_space a = false →
  trimStart (a +:+ b) = a +:+ b.
Proof. destruct a as [|c r]; simpl; [done|]. by intros _ ->. Qed.

Lemma trimStart_id s : starts_with_space s = false → trimStart s = s.
Proof. destruct s as [|c r]; simpl; [done|]. by intros ->. Qed.

Lemma component_no_space s : component s → includes s " " = false.
Proof. by intros (_ & ? & _). Qed.

Lemma split_no_sep s sep : includes s sep = false → split s sep = [s].
Proof.
  induction s as [|c r IH]; simpl; [done|].
  intros H. apply orb_false_iff in H as [Hc Hr].
  apply bool_decide_eq_false in Hc.
  destruct (decide (c = sep)); [done|]. by rewrite (IH Hr).
Qed.

Lemma split_app_sep x sep r :
  includes x sep = false →
  split (x +:+ String sep r) sep = x :: split r sep.
Proof.
  induction x as [|c x IH]; simpl.
  - intros _. by destruct (decide (sep = sep)).
  - intros H. apply orb_false_iff in H as [Hc Hx].
    apply bool_decide_eq_false in Hc.
    destruct (decide (c = sep)); [done|]. by rewrite (IH Hx).
Qed.

Lemma join_cons x y rest sep :
  join (x :: y :: rest) sep = x +:+ String sep (join (y :: rest) sep).
Proof. done. Qed.

Lemma join_nonempty x rest sep :
  x ≠ EmptyString → join (x :: rest) sep ≠ EmptyString.
Proof. destruct x, rest; simpl; done. Qed.

Lemma split_join comps sep :
  comps ≠ [] → Forall (fun s => includes s sep = false) comps →
  split (join comps sep) sep = comps.
Proof.
  induction comps as [|x [|y rest] IH]; intros Hne Hall; [done| |].
  - simpl. apply split_no_sep. by inversion Hall.
  - rewrite join_cons. inversion Hall as [|? ? Hx Hrest]; subst.
    rewrite (split_app_sep _ _ _ Hx). f_equal. by apply IH.
Qed.

Lemma trim_join comps :
  Forall component comps → trim (join comps " ") = join comps " ".
Proof.
  unfold trim. intros Hall.
  assert (trimStart (join comps " ") = join comps " ") as ->.
  { destruct Hall as [|x [|y rest] (Hx & _ & Hst & _) _]; [done| |].
    - by apply trimStart_id.
    - rewrite join_cons. by apply trimStart_app. }
  induction comps as [|x [|y rest] IH]; [done| |].
  - simpl. inversion Hall as [|? ? (? & _ & _ & ?) _]. by apply trimEnd_id.
  - rewrite join_cons. inversion Hall as [|? ? Hx Hrest]; subst.
    specialize (IH Hrest).
    assert (join (y :: rest) " " ≠ EmptyString) as Hne.
    { apply join_nonempty. by inversion Hrest as [|? ? [? _] _]. }
    set (J := join (y :: rest) " ") in *.
    assert (trimEnd (String " " J) = String " " J) as Hsp.
    { rewrite trimEnd_cons; rewrite IH; done. }
    rewrite trimEnd_app; rewrite Hsp; done.
Qed.

(** ** The [Authorization] shorthand *)

Lemma send_auth_params_shorthand scheme comps :
  includes scheme " " = false → Forall component comps → comps ≠ [] →
  send_auth_params (scheme +:+ String " " (join comps " ")) = comps.
Proof.
  intros Hs Hall Hne. unfold send_auth_params.
  rewrite (substr_rest _ _ Hs).
  assert (trim (String " " (join comps " ")) = trim (join comps " ")) as ->
    by done.
  rewrite (trim_join _ Hall). apply split_join; [done|].
  eapply Forall_impl; [exact Hall|]. apply component_no_space.
Qed.

Lemma send_auth_shorthand scheme comps :
  scheme = "Basic" ∨ scheme = "Digest" → Forall component comps →
  send_auth (Some (scheme +:+ String " " (join comps " ")))
  = match comps with
    | [u; p] => Some {| user := u; pass := p;
                        sendImmediately := bool_decide (scheme = "Basic") |}
    | _ => None
    end.
Proof.
  intros Hscheme Hall.
  assert (includes scheme " " = false) as Hs by (by destruct Hscheme; subst).
  unfold send_auth.
  assert (truthy (Some (scheme +:+ String " " (join comps " "))) = true) as ->.
  { by destruct Hscheme; subst. }
  rewrite (substr_scheme _ _ Hs).
  destruct (decide (scheme = "Digest" ∨ scheme = "Basic")) as [_|Hn];
    [|by destruct Hn; destruct Hscheme; auto].
  destruct comps as [|x rest].
  - unfold send_auth_params. rewrite (substr_rest _ _ Hs). done.
  - rewrite send_auth_params_shorthand; done.
Qed.

Lemma send_auth_other_params a :
  length (send_auth_params a) ≠ 2%nat → send_auth (Some a) = None.
Proof.
  intros H. unfold send_auth.
  destruct (truthy (Some a)); [|done].
  destruct (decide _); [|done].
  destruct (send_auth_params a) as [|? [|? [|? ?]]]; simpl in *; done.
Qed.

Lemma send_auth_no_space a : includes a " " = false → send_auth (Some a) = None.
Proof.
  intros H. unfold send_auth. rewrite (substr_no_scheme _ H).
  destruct (truthy (Some a)); [|done].
  destruct (decide _) as [[?|?]|?]; done.
Qed.

(** ** Header lookup *)

Lemma get_app_not_key pre suf k : k ∉ keys pre → get (pre ++ suf) k = get suf k.
Proof.
  induction pre as [|[k' v'] pre IH]; simpl; [done|].
  intros Hk. apply not_elem_of_cons in Hk as [Hne Hk].
  destruct (decide (k' = k)); [congruence | by apply IH].
Qed.

Lemma getHeaderValue_loop_first pre suf name :
  Forall (fun k => ¬ same_name k name) (keys pre) →
  getHeaderValue_loop (pre ++ suf) (keys suf) name = first_match suf name.
Proof.
  revert pre. induction suf as [|[k v] suf IH]; intros pre Hpre; simpl; [done|].
  unfold same_name_dec, decide at 2.
  destruct (decide (toLowerCase k = toLowerCase name)) as [Hk|Hk].
  - rewrite get_app_not_key; simpl.
    + by destruct (decide (k = k)).
    + intros Hin. rewrite Forall_forall in Hpre. by apply (Hpre k).
  - replace (pre ++ (k, v) :: suf) with ((pre ++ [(k, v)]) ++ suf)
      by (by rewrite <- app_assoc).
    apply IH. unfold keys. rewrite map_app. apply Forall_app. split; [done|].
    by apply Forall_singleton.
Qed.

Lemma getHeaderValue_first_match headers name :
  getHeaderValue (Some headers) name = first_match headers name.
Proof. apply (getHeaderValue_loop_first [] headers name). constructor. Qed.

Lemma first_match_here pre k v post name :
  same_name k name → Forall (fun k' => ¬ same_name k' name) (keys pre) →
  first_match (pre ++ (k, v) :: post) name = Some v.
Proof.
  intros Hk. induction pre as [|[k' v'] pre IH]; simpl; intros Hpre.
  - by destruct (decide (same_name k name)).
  - inversion Hpre; subst.
    destruct (decide (same_name k' name)); [done | by apply IH].
Qed.

Lemma first_match_None headers name :
  first_match headers name = None
  ↔ Forall (fun k => ¬ same_name k name) (keys headers).
Proof.
  induction headers as [|[k v] rest IH]; simpl.
  - split; [constructor | done].
  - destruct (decide (same_name k name)) as [Hk|Hk].
    + split; [done|]. intros H. by inversion H.
    + rewrite IH. split; [by constructor|]. intros H. by inversion H.
Qed.

Lemma first_match_set headers k v name :
  ¬ same_name k name →
  first_match (set headers k v) name = first_match headers name.
Proof.
  intros Hk. induction headers as [|[k' v'] rest IH]; simpl.
  - by destruct (decide (same_name k name)).
  - destruct (decide (k' = k)) as [->|Hne]; simpl.
    + by destruct (decide (same_name k name)).
    + destruct (decide (same_name k' name)); [done | apply IH].
Qed.

Lemma getHeaderValue_send_userAgent headers d name :
  ¬ same_name "User-Agent" name →
  getHeaderValue (Some (send_userAgent headers d)) name
  = getHeaderValue (Some headers) name.
Proof.
  intros Hn. rewrite !getHeaderValue_first_match. unfold send_userAgent.
  destruct (injects_userAgent headers); [by apply first_match_set | done].
Qed.

Lemma injects_userAgent_iff headers :
  injects_userAgent headers = true
  ↔ Forall (fun k => ¬ same_name k "User-Agent") (keys headers)
    ∨ first_match headers "User-Agent" = Some EmptyString.
Proof.
  unfold injects_userAgent. rewrite getHeaderValue_first_match.
  rewrite <- first_match_None.
  destruct (first_match headers "User-Agent") as [[|c r]|]; simpl;
    split; intros H; try done; auto; destruct H; done.
Qed.

(** C8 (as amended).  [getHeaderValue] returns the value of the first key,
    in enumeration order, that is the queried name up to case; names equal up
    to ASCII case are the same name, so a header stored as [Content-Type] is
    found as [content-type].  The default [User-Agent] is written exactly when
    that lookup is falsy: no key is [User-Agent] up to case, or the first such
    key has the empty value. *)
Theorem getHeaderValue_first_same_name :
  (∀ pre k v post name,
      same_name k name →
      Forall (fun k' => ¬ same_name k' name) (keys pre) →
      getHeaderValue (Some (pre ++ (k, v) :: post)) name = Some v)
  ∧ (∀ k name, ascii_case_eq k name → same_name k name)
  ∧ (∀ v, getHeaderValue (Some [("Content-Type", v)]) "content-type" = Some v)
  ∧ (∀ headers d,
       send_userAgent headers d
       = if injects_userAgent headers then set headers "User-Agent" d
         else headers)
  ∧ (∀ headers,
       injects_userAgent headers = true
       ↔ Forall (fun k => ¬ same_name k "User-Agent") (keys headers)
         ∨ first_match headers "User-Agent" = Some EmptyString).
Proof.
  split; [|split; [|split; [|split]]].
  - intros pre k v post name Hk Hpre.
    rewrite getHeaderValue_first_match. by apply first_match_here.
  - apply ascii_case_eq_same_name.
  - done.
  - done.
  - apply injects_userAgent_iff.
Qed.

Lemma getHeaderValue_first_same_name_witness :
  getHeaderValue
    (Some ([("Accept", "*/*")] ++ ("Content-Type", "text/plain")
             :: [("content-type", "text/html")])) "CONTENT-TYPE"
  = Some "text/plain"
  ∧ injects_userAgent [("Accept", "*/*"); ("user-agent", "")] = true.
Proof.
  destruct getHeaderValue_first_same_name as (Hfirst & _ & _ & _ & Hua).
  split.
  - apply Hfirst; [by vm_compute|].
    repeat constructor. by vm_compute.
  - apply Hua. right. by vm_compute.
Defined.

(** C8 as stated fails twice over.  With two keys that are both the queried
    name up to case the value of the second one is not returned; and a
    [User-Agent] header that is present with an empty value does not keep the
    default from being written. *)
Lemma getHeaderValue_counterexample :
  ¬ (∀ headers name k v,
        (k, v) ∈ headers → ascii_case_eq k name →
        getHeaderValue (Some headers) name = Some v)
  ∧ ¬ (∀ headers,
         injects_userAgent headers = true
         ↔ ¬ ∃ k, k ∈ keys headers ∧ ascii_case_eq k "User-Agent").
Proof.
  split.
  - intros H.
    assert (getHeaderValue
              (Some [("Content-Type", "a"); ("content-type", "b")])
              "content-type" = Some "b") as E.
    { apply H with (k := "content-type"); [set_solver | done]. }
    vm_compute in E. discriminate E.
  - intros H.
    specialize (H [("User-Agent", "")]). destruct H as [H1 _].
    apply H1; [by vm_compute|].
    exists "User-Agent". split; [set_solver | done].
Qed.

(** ** The options of a request *)

Lemma not_same_name_userAgent_authorization :
  ¬ same_name "User-Agent" "Authorization".
Proof. by vm_compute. Qed.

Lemma authorization_kept (hs : option JsObject) d :
  getHeaderValue
    (Some (send_userAgent (match hs with Some h => h | None => [] end) d))
    "Authorization"
  = getHeaderValue hs "Authorization".
Proof.
  rewrite getHeaderValue_send_userAgent
    by apply not_same_name_userAgent_authorization.
  by destruct hs.
Qed.

Lemma send_options_Ok `{Platform} settings httpRequest certificate ignore :
  getRequestCertificate (req_url httpRequest) = Ok certificate →
  ignoreProxy (req_url httpRequest) (excludeHostsForProxy settings) = Ok ignore →
  ∃ o, send_options settings httpRequest = Ok o
       ∧ opt_auth o
         = send_auth (getHeaderValue (req_headers httpRequest) "Authorization")
       ∧ getHeaderValue (Some (opt_headers o)) "Authorization"
         = getHeaderValue (req_headers httpRequest) "Authorization"
       ∧ opt_proxy o = (if ignore then None else proxy settings)
       ∧ opt_strictSSL o
         = (if truthy (opt_proxy o) then proxyStrictSSL settings else false).
Proof.
  intros Hc Hi. unfold send_options. rewrite Hc. simpl. rewrite Hi. simpl.
  eexists. split; [reflexivity|]. simpl.
  split; [done|]. split; [apply authorization_kept|]. done.
Qed.

(** C2.  When the [Authorization] value is [Basic] or [Digest] followed by
    space-separated components, the options carry credentials exactly when
    there are two components, which are then the user and the password, and
    [sendImmediately] is true exactly for [Basic]; any value whose
    post-scheme part does not split into two parts sets no credentials; and
    the header itself is passed on unchanged. *)
Theorem send_auth_from_authorization `{Platform} settings httpRequest
    certificate ignore :
  getRequestCertificate (req_url httpRequest) = Ok certificate →
  ignoreProxy (req_url httpRequest) (excludeHostsForProxy settings) = Ok ignore →
  ∃ o, send_options settings httpRequest = Ok o
       ∧ getHeaderValue (Some (opt_headers o)) "Authorization"
         = getHeaderValue (req_headers httpRequest) "Authorization"
       ∧ (∀ scheme comps,
            scheme = "Basic" ∨ scheme = "Digest" →
            Forall component comps →
            getHeaderValue (req_headers httpRequest) "Authorization"
            = Some (scheme +:+ String " " (join comps " ")) →
            opt_auth o
            = match comps with
              | [u; p] =>
                  Some {| user := u; pass := p;
                          sendImmediately := bool_decide (scheme = "Basic") |}
              | _ => None
              end)
       ∧ (∀ a,
            getHeaderValue (req_headers httpRequest) "Authorization" = Some a →
            length (send_auth_params a) ≠ 2%nat →
            opt_auth o = None).
Proof.
  intros Hc Hi.
  destruct (send_options_Ok settings httpRequest certificate ignore Hc Hi)
    as (o & Ho & Hauth & Hkept & _).
  exists o. split; [done|]. split; [done|]. split.
  - intros scheme comps Hs Hcomps Ha. rewrite Hauth, Ha.
    by apply send_auth_shorthand.
  - intros a Ha Hlen. rewrite Hauth, Ha. by apply send_auth_other_params.
Qed.

(** C9.  For an [Authorization] value without a space the scheme read at
    line 47 is the empty string, building the options goes through, no
    credentials are set and the header is passed on unchanged. *)
Theorem send_auth_without_space `{Platform} settings httpRequest a
    certificate ignore :
  getHeaderValue (req_headers httpRequest) "Authorization" = Some a →
  includes a " " = false →
  getRequestCertificate (req_url httpRequest) = Ok certificate →
  ignoreProxy (req_url httpRequest) (excludeHostsForProxy settings) = Ok ignore →
  send_auth_scheme a = EmptyString
  ∧ ∃ o, send_options settings httpRequest = Ok o
         ∧ opt_auth o = None
         ∧ getHeaderValue (Some (opt_headers o)) "Authorization" = Some a.
Proof.
  intros Ha Hsp Hc Hi. split; [by apply substr_no_scheme|].
  destruct (send_options_Ok settings httpRequest certificate ignore Hc Hi)
    as (o & Ho & Hauth & Hkept & _).
  exists o. split; [done|]. split.
  - rewrite Hauth, Ha. by apply send_auth_no_space.
  - by rewrite Hkept.
Qed.

Lemma send_auth_from_authorization_witness :
  ∃ o, @send_options sample_platform sample_settings
         (sample_request "http://example.com/x" "Basic alice secret") = Ok o
       ∧ opt_auth o
         = Some {| user := "alice"; pass := "secret"; sendImmediately := true |}.
Proof.
  destruct (@send_auth_from_authorization sample_platform sample_settings
              (sample_request "http://example.com/x" "Basic alice secret")
              no_certificate true eq_refl eq_refl)
    as (o & Ho & _ & Hshort & _).
  exists o. split; [exact Ho|].
  apply (Hshort "Basic" ["alice"; "secret"]).
  - left. reflexivity.
  - repeat constructor; (discriminate || reflexivity).
  - vm_compute. reflexivity.
Defined.

Lemma send_auth_without_space_witness :
  send_auth_scheme "dXNlcjpwYXNz" = EmptyString
  ∧ ∃ o, @send_options sample_platform sample_settings
           (sample_request "http://foo.com:9090/x" "dXNlcjpwYXNz") = Ok o
         ∧ opt_auth o = None
         ∧ getHeaderValue (Some (opt_headers o)) "Authorization"
           = Some "dXNlcjpwYXNz".
Proof.
  apply (@send_auth_without_space sample_platform sample_settings
           (sample_request "http://foo.com:9090/x" "dXNlcjpwYXNz")
           "dXNlcjpwYXNz" no_certificate false).
  - vm_compute. reflexivity.
  - vm_compute. reflexivity.
  - reflexivity.
  - vm_compute. reflexivity.
Defined.

(** ** Splitting and the exclusion list *)

Lemma split_nonempty s sep : split s sep ≠ [].
Proof.
  destruct s as [|c r]; simpl; [done|].
  destruct (decide (c = sep)); [done|]. by destruct (split r sep).
Qed.

Lemma join_split s sep : join (split s sep) sep = s.
Proof.
  induction s as [|c r IH]; simpl; [done|].
  pose proof (split_nonempty r sep) as Hne.
  destruct (decide (c = sep)) as [->|Hc].
  - destruct (split r sep) as [|x xs] eqn:E; [done|].
    rewrite join_cons, IH. done.
  - destruct (split r sep) as [|x [|y ys]] eqn:E; [done| |].
    + simpl in *. by rewrite IH.
    + rewrite join_cons in *. rewrite <- IH. done.
Qed.

Lemma split_parts s sep :
  Forall (fun x => includes x sep = false) (split s sep).
Proof.
  induction s as [|c r IH]; simpl; [by repeat constructor|].
  destruct (decide (c = sep)) as [->|Hc]; [by constructor|].
  destruct (split r sep) as [|x xs].
  - constructor; [simpl; by rewrite bool_decide_eq_false_2 | constructor].
  - inversion IH as [|? ? Hx Hxs]; subst. constructor; [|done]. simpl.
    by rewrite bool_decide_eq_false_2.
Qed.

Lemma split_one e x :
  (length (split e ":") = 1%nat ∧ split e ":" !! 0%nat = Some x)
  ↔ (includes e ":" = false ∧ e = x).
Proof.
  split.
  - intros [Hlen H0]. pose proof (join_split e ":") as Hj.
    pose proof (split_parts e ":") as Hp.
    destruct (split e ":") as [|y [|? ?]]; simpl in *; try done.
    inversion Hp; subst. by simplify_eq.
  - intros [Hn ->]. by rewrite (split_no_sep _ _ Hn).
Qed.

Lemma split_two e x port :
  (length (split e ":") = 2%nat ∧ split e ":" !! 0%nat = Some x
   ∧ split e ":" !! 1%nat = port)
  ↔ (∃ p, port = Some p ∧ e = x +:+ String ":" p
          ∧ includes x ":" = false ∧ includes p ":" = false).
Proof.
  split.
  - intros (Hlen & H0 & H1). pose proof (join_split e ":") as Hj.
    pose proof (split_parts e ":") as Hp.
    destruct (split e ":") as [|y [|z [|? ?]]]; simpl in *; try done.
    inversion Hp as [|? ? Hy Hrest]; subst. inversion Hrest; subst.
    simplify_eq. by exists z.
  - intros (p & -> & -> & Hx & Hp).
    rewrite (split_app_sep _ _ _ Hx), (split_no_sep _ _ Hp). done.
Qed.

Lemma elem_of_uniq_from x seen l :
  x ∈ uniq_from seen l ↔ x ∈ l ∧ x ∉ seen.
Proof.
  revert seen. induction l as [|y l IH]; intros seen; simpl.
  - set_solver.
  - destruct (decide (y ∈ seen)) as [Hy|Hy].
    + rewrite IH. set_solver.
    + rewrite elem_of_cons, IH. split.
      * intros [->|[Hl Hs]]; [set_solver|]. set_solver.
      * intros [Hx Hs]. apply elem_of_cons in Hx as [->|Hx]; [by left|].
        destruct (decide (x = y)) as [->|Hne]; [by left|]. right. set_solver.
Qed.

Lemma elem_of_uniq x l : x ∈ uniq l ↔ x ∈ l.
Proof. unfold uniq. rewrite elem_of_uniq_from. set_solver. Qed.

Lemma truthy_Some_iff (v : option string) :
  truthy v = true ↔ ∃ p, v = Some p ∧ p ≠ EmptyString.
Proof.
  destruct v as [[|c r]|]; simpl; split; try done.
  - intros (p & [= <-] & Hp). done.
  - intros _. by eexists.
  - intros (p & ? & _). done.
Qed.

Lemma ignoreProxy_loop_true hostName port l :
  ignoreProxy_loop hostName port l = true
  ↔ ∃ e, e ∈ l ∧ entry_matches hostName port e.
Proof.
  induction l as [|eh rest IH]; simpl.
  - split; [done|]. intros (e & He & _). by apply elem_of_nil in He.
  - assert (entry_matches hostName port eh
            ↔ (length (split eh ":") = 1%nat
               ∧ split eh ":" !! 0%nat = Some hostName)
              ∨ (truthy port = true
                 ∧ length (split eh ":") = 2%nat
                 ∧ split eh ":" !! 0%nat = Some hostName
                 ∧ split eh ":" !! 1%nat = port)) as Hm.
    { unfold entry_matches. rewrite split_one, split_two, truthy_Some_iff.
      split.
      - intros [?|(h & p & -> & Hh & Hp & -> & Hne & ->)]; [by left|].
        right. split; [by exists p|]. by exists p.
      - intros [?|((p & -> & Hne) & (p' & [= <-] & -> & Hh & Hp))];
          [by left|].
        right. by exists hostName, p. }
    assert ((∃ e, e ∈ eh :: rest ∧ entry_matches hostName port e)
            ↔ entry_matches hostName port eh
              ∨ ∃ e, e ∈ rest ∧ entry_matches hostName port e) as Hex.
    { split.
      - intros (e & He & Hmatch). apply elem_of_cons in He as [->|He];
          [by left | right; by exists e].
      - intros [?|(e & He & Hmatch)];
          [exists eh | exists e]; split; try done; set_solver. }
    rewrite Hex, Hm, <- IH. clear Hex Hm IH.
    destruct (truthy port); simpl;
      repeat (case_decide; simpl); split; intros; try done; naive_solver.
Qed.

Lemma ignoreProxy_nonempty `{Platform} requestUrl l h :
  l ≠ [] → hostname (url_parse requestUrl) = Some h →
  ignoreProxy requestUrl (Some l)
  = Ok (ignoreProxy_loop (toLowerCase h) (port (url_parse requestUrl))
          (uniq (map toLowerCase l))).
Proof.
  intros Hne Hh. destruct l; [done|]. unfold ignoreProxy. by rewrite Hh.
Qed.

Lemma ignoreProxy_no_hostname `{Platform} requestUrl l b :
  l ≠ [] → hostname (url_parse requestUrl) = None →
  ignoreProxy requestUrl (Some l) ≠ Ok b.
Proof.
  intros Hne Hh. destruct l; [done|]. unfold ignoreProxy. by rewrite Hh.
Qed.

(** C3.  [ignoreProxy] returns true exactly when the exclusion list has an
    entry that, in lower case, matches the lower-cased host of the request:
    an entry without a port matches on the host name alone, whether or not
    the request has a port, and an entry [host:port] matches only a request
    with that host and that port.  A missing or empty list gives false.  With
    the list [example.com], [foo.com:8080] the four requests of the
    specification come out as it says. *)
Theorem ignoreProxy_spec :
  (∀ (P : Platform) requestUrl excludeHostsForProxy,
      ignoreProxy requestUrl excludeHostsForProxy = Ok true
      ↔ ∃ l h, excludeHostsForProxy = Some l
               ∧ hostname (url_parse requestUrl) = Some h
               ∧ ∃ e, e ∈ l
                      ∧ entry_matches (toLowerCase h)
                          (port (url_parse requestUrl)) (toLowerCase e))
  ∧ (∀ (P : Platform) requestUrl,
       ignoreProxy requestUrl None = Ok false
       ∧ ignoreProxy requestUrl (Some []) = Ok false)
  ∧ (let excludeHostsForProxy := Some ["example.com"; "foo.com:8080"] in
     @ignoreProxy sample_platform "http://example.com/x"
       excludeHostsForProxy = Ok true
     ∧ @ignoreProxy sample_platform "http://example.com:9999/x"
         excludeHostsForProxy = Ok true
     ∧ @ignoreProxy sample_platform "http://foo.com:8080/x"
         excludeHostsForProxy = Ok true
     ∧ @ignoreProxy sample_platform "http://foo.com:9090/x"
         excludeHostsForProxy = Ok false).
Proof.
  split; [|split; [done | by vm_compute]].
  intros P requestUrl excl.
  destruct excl as [l|]; [|split; [done | by intros (? & ? & ? & _)]].
  destruct (decide (l = [])) as [->|Hne].
  { split; [done|]. intros (l & h & [= <-] & _ & e & He & _).
    by apply elem_of_nil in He. }
  destruct (hostname (url_parse requestUrl)) as [h|] eqn:Hh.
  - rewrite (ignoreProxy_nonempty _ _ _ Hne Hh). split.
    + intros Hloop. assert (ignoreProxy_loop (toLowerCase h)
        (port (url_parse requestUrl)) (uniq (map toLowerCase l)) = true)
        as Hl by congruence.
      apply ignoreProxy_loop_true in Hl as (e & He & Hm).
      apply elem_of_uniq, list_elem_of_fmap in He as (e0 & -> & He0).
      exists l, h. split; [done|]. split; [done|]. by exists e0.
    + intros (l' & h' & [= <-] & [= <-] & e & He & Hm). f_equal.
      apply ignoreProxy_loop_true. exists (toLowerCase e). split; [|done].
      apply elem_of_uniq. change (toLowerCase e ∈ toLowerCase <$> l).
      apply list_elem_of_fmap. by exists e.
  - split; [|by intros (l' & h' & _ & ? & _)].
    intros Hi. by apply ignoreProxy_no_hostname in Hi.
Qed.

(** ** Restoring the case of the response headers *)

Lemma get_Some_key (headers : JsObject) h v :
  get headers h = Some v → h ∈ keys headers.
Proof.
  induction headers as [|[k' v'] rest IH]; simpl; [done|].
  destruct (decide (k' = h)) as [->|Hne]; [set_solver|].
  intros Hg. apply elem_of_cons. right. by apply IH.
Qed.

Lemma plain_write_lookup (o : gmap string string) k v j :
  plain_write o k v !! j
  = if decide (k = j ∧ k ≠ "__proto__") then Some v else o !! j.
Proof.
  unfold plain_write. destruct (decide (k = "__proto__")) as [Hp|Hp].
  - rewrite decide_False by tauto. done.
  - destruct (decide (k = j)) as [->|Hne].
    + rewrite decide_True by done. apply lookup_insert_eq.
    + rewrite decide_False by tauto. by apply lookup_insert_ne.
Qed.

Lemma plain_write_twice (o : gmap string string) k v :
  plain_write (plain_write o k v) k v = plain_write o k v.
Proof.
  unfold plain_write. destruct (decide (k = "__proto__")); [done|].
  apply insert_insert_eq.
Qed.

Lemma toLowerCase_proto : toLowerCase "__proto__" = "__proto__".
Proof. reflexivity. Qed.

Lemma rawHeaderNames_fold_lower raw (acc : gmap string string) :
  (∀ h r, acc !! h = Some r → toLowerCase r = h ∧ h ≠ "__proto__") →
  ∀ h r,
    foldl (fun result header => plain_write result (toLowerCase header) header)
      acc raw !! h = Some r →
    toLowerCase r = h ∧ h ≠ "__proto__".
Proof.
  revert acc. induction raw as [|x raw IH]; intros acc Hacc h r; simpl.
  - apply Hacc.
  - apply IH. intros h' r'. rewrite plain_write_lookup. case_decide.
    + intros [= <-]. destruct H as [<- ?]. done.
    + apply Hacc.
Qed.

Lemma rawHeaderNames_fold_elem raw (acc : gmap string string) h r :
  foldl (fun result header => plain_write result (toLowerCase header) header)
    acc raw !! h = Some r →
  acc !! h = Some r ∨ r ∈ raw.
Proof.
  revert acc. induction raw as [|x raw IH]; intros acc; simpl; [by left|].
  intros Hl. apply IH in Hl as [Hl|Hl]; [|right; set_solver].
  rewrite plain_write_lookup in Hl. case_decide.
  - right. injection Hl as <-. set_solver.
  - by left.
Qed.

Lemma rawHeaderNames_fold_some raw (acc : gmap string string) h :
  h ≠ "__proto__" →
  is_Some (acc !! h) ∨ (∃ r0, r0 ∈ raw ∧ toLowerCase r0 = h) →
  is_Some
    (foldl (fun result header => plain_write result (toLowerCase header) header)
       acc raw !! h).
Proof.
  intros Hp. revert acc. induction raw as [|x raw IH]; intros acc; simpl.
  - intros [?|(r0 & Hr & _)]; [done | by apply elem_of_nil in Hr].
  - intros [Hacc|(r0 & Hr & Hlow)]; apply IH.
    + left. rewrite plain_write_lookup. case_decide; [by eexists | done].
    + apply elem_of_cons in Hr as [->|Hr].
      * left. rewrite plain_write_lookup, decide_True; [by eexists|].
        split; [done | congruence].
      * right. by exists r0.
Qed.

Lemma rawHeaderNames_fold_untouched raw (acc : gmap string string) h :
  Forall (fun y => toLowerCase y ≠ h) raw →
  foldl (fun result header => plain_write result (toLowerCase header) header)
    acc raw !! h = acc !! h.
Proof.
  revert acc. induction raw as [|x raw IH]; intros acc Hall; simpl; [done|].
  inversion Hall as [|? ? Hx Hraw]; subst.
  rewrite (IH _ Hraw), plain_write_lookup. by rewrite decide_False by tauto.
Qed.

Lemma rawHeaderNames_lower raw h r :
  getResponseRawHeaderNames raw !! h = Some r →
  toLowerCase r = h ∧ r ∈ raw ∧ h ≠ "__proto__".
Proof.
  intros Hl.
  destruct (rawHeaderNames_fold_lower raw ∅) with (h := h) (r := r)
    as [? ?]; [done | done |].
  split; [done|]. split; [|done].
  by apply rawHeaderNames_fold_elem in Hl as [?|?].
Qed.

Lemma rawHeaderNames_some raw h r0 :
  h ≠ "__proto__" → r0 ∈ raw → toLowerCase r0 = h →
  is_Some (getResponseRawHeaderNames raw !! h).
Proof.
  intros Hp Hr Hlow. apply rawHeaderNames_fold_some; [done|].
  right. by exists r0.
Qed.

Lemma plain_read_plain_key raw h :
  plain_key raw h →
  (∃ r, getResponseRawHeaderNames raw !! h = Some r
        ∧ plain_read (getResponseRawHeaderNames raw) h = Own r)
  ∨ (getResponseRawHeaderNames raw !! h = None
     ∧ plain_read (getResponseRawHeaderNames raw) h = Absent).
Proof.
  intros [Hp Hk]. unfold plain_read.
  destruct (getResponseRawHeaderNames raw !! h) as [r|] eqn:E.
  - left. by exists r.
  - right. split; [done|]. destruct Hk as [(r0 & Hr & Hlow)|Hi].
    + destruct (rawHeaderNames_some _ _ _ Hp Hr Hlow) as [? ?]. congruence.
    + by rewrite Hi.
Qed.

Lemma restored_name_lower raw h :
  toLowerCase h = h → plain_key raw h →
  toLowerCase (restored_name (getResponseRawHeaderNames raw) h) = h.
Proof.
  intros Hh Hk. unfold restored_name.
  destruct (plain_read_plain_key _ _ Hk) as [(r & Hr & ->)|[_ ->]];
    cbn [property_truthy property_key]; [|done].
  destruct (truthy (Some r)); [|done].
  by apply rawHeaderNames_lower in Hr as [? _].
Qed.

Lemma restored_name_not_proto raw h :
  toLowerCase h = h → plain_key raw h →
  restored_name (getResponseRawHeaderNames raw) h ≠ "__proto__".
Proof.
  intros Hh Hk Hrn. pose proof (restored_name_lower _ _ Hh Hk) as Hl.
  rewrite Hrn, toLowerCase_proto in Hl. destruct Hk as [Hp _]. congruence.
Qed.

Lemma adjust_step_write dic headers (acc : gmap string string) header v :
  get headers header = Some v →
  adjust_step dic headers acc header
  = plain_write acc (restored_name dic header) v.
Proof.
  intros Hg. unfold adjust_step, restored_name. rewrite Hg.
  destruct (property_truthy (plain_read dic header)); [|done].
  apply plain_write_twice.
Qed.

Lemma adjust_lookup dic headers ks (acc : gmap string string) k v :
  foldl (adjust_step dic headers) acc ks !! k = Some v →
  acc !! k = Some v
  ∨ ∃ h, h ∈ ks ∧ restored_name dic h = k ∧ get headers h = Some v.
Proof.
  revert acc. induction ks as [|x ks IH]; intros acc; simpl; [by left|].
  intros Hl. apply IH in Hl as [Hl|(h & Hh & Hn & Hg)].
  - destruct (get headers x) as [vx|] eqn:Hx.
    + rewrite (adjust_step_write _ _ _ _ _ Hx), plain_write_lookup in Hl.
      case_decide as Hd; [|by left].
      injection Hl as <-. destruct Hd as [Hd _].
      right. exists x. split; [set_solver | done].
    + unfold adjust_step in Hl. rewrite Hx in Hl. by left.
  - right. exists h. split; [set_solver | done].
Qed.

Lemma adjust_mono dic headers ks (acc : gmap string string) k :
  is_Some (acc !! k) → is_Some (foldl (adjust_step dic headers) acc ks !! k).
Proof.
  revert acc. induction ks as [|x ks IH]; intros acc Hk; simpl; [done|].
  apply IH. destruct (get headers x) as [vx|] eqn:Hx.
  - rewrite (adjust_step_write _ _ _ _ _ Hx), plain_write_lookup.
    case_decide; [by eexists | done].
  - unfold adjust_step. by rewrite Hx.
Qed.

Lemma adjust_present dic headers ks (acc : gmap string string) h v :
  h ∈ ks → get headers h = Some v → restored_name dic h ≠ "__proto__" →
  is_Some (foldl (adjust_step dic headers) acc ks !! restored_name dic h).
Proof.
  revert acc. induction ks as [|x ks IH]; intros acc Hin Hg Hp; simpl.
  - by apply elem_of_nil in Hin.
  - apply elem_of_cons in Hin as [<-|Hin]; [|by apply IH].
    apply adjust_mono. rewrite (adjust_step_write _ _ _ _ _ Hg).
    rewrite plain_write_lookup, decide_True by done. by eexists.
Qed.

Lemma transport_keys_key rawHeaders headers h :
  transport_keys rawHeaders headers → h ∈ keys headers →
  toLowerCase h = h ∧ plain_key rawHeaders h.
Proof.
  unfold transport_keys. rewrite Forall_forall. intros Hall Hh. by apply Hall.
Qed.

Lemma adjusted_origin headers rawHeaders k v :
  transport_keys rawHeaders headers →
  send_adjustHeaders headers rawHeaders !! k = Some v →
  ∃ h, h ∈ keys headers ∧ toLowerCase k = h
       ∧ restored_name (getResponseRawHeaderNames rawHeaders) h = k
       ∧ get headers h = Some v.
Proof.
  intros Hkeys Hl. unfold send_adjustHeaders in Hl.
  apply adjust_lookup in Hl as [Hl|(h & Hh & Hn & Hg)]; [done|].
  exists h. split; [done|]. split; [|done]. subst k.
  destruct (transport_keys_key _ _ _ Hkeys Hh) as [Hlow Hk].
  by apply restored_name_lower.
Qed.

Lemma adjusted_restored headers rawHeaders h v :
  transport_keys rawHeaders headers →
  get headers h = Some v →
  send_adjustHeaders headers rawHeaders
    !! restored_name (getResponseRawHeaderNames rawHeaders) h = Some v.
Proof.
  intros Hkeys Hg. pose proof (get_Some_key _ _ _ Hg) as Hin.
  destruct (transport_keys_key _ _ _ Hkeys Hin) as [Hlow Hk].
  destruct (adjust_present (getResponseRawHeaderNames rawHeaders) headers
              (keys headers) ∅ h v Hin Hg) as [v' Hv'].
  { by apply restored_name_not_proto. }
  fold (send_adjustHeaders headers rawHeaders) in Hv'.
  destruct (adjusted_origin _ _ _ _ Hkeys Hv') as (h' & _ & Hk' & _ & Hg').
  rewrite restored_name_lower in Hk' by done.
  subst h'. congruence.
Qed.

Lemma elem_of_raw_of_pairs x pairs :
  x ∈ raw_of_pairs pairs ↔ x ∈ pairs.*1 ∨ x ∈ pairs.*2.
Proof.
  induction pairs as [|[n v] pairs IH]; simpl.
  - set_solver.
  - rewrite !elem_of_cons, IH. tauto.
Qed.

(** C10.  The transport hands over its headers under lower-case keys that
    the dictionary of raw names resolves without [Object.prototype] (no key
    [__proto__]; a key that [Object.prototype] defines has its raw name in
    the list).  Every key of the adjusted headers then carries the value the
    transport stored under the lower-cased form of that key, and every header
    of the transport is found again, with its value, under a key that is its
    name up to case: values are neither altered, nor dropped, nor
    invented. *)
Theorem send_adjustHeaders_values headers rawHeaders :
  transport_keys rawHeaders headers →
  (∀ k v,
      send_adjustHeaders headers rawHeaders !! k = Some v →
      get headers (toLowerCase k) = Some v)
  ∧ (∀ h v,
       get headers h = Some v →
       ∃ k, toLowerCase k = h
            ∧ send_adjustHeaders headers rawHeaders !! k = Some v).
Proof.
  intros Hkeys. split.
  - intros k v Hl.
    destruct (adjusted_origin _ _ _ _ Hkeys Hl) as (h & _ & -> & _ & Hg). done.
  - intros h v Hg.
    exists (restored_name (getResponseRawHeaderNames rawHeaders) h). split.
    + apply get_Some_key in Hg.
      destruct (transport_keys_key _ _ _ Hkeys Hg). by apply restored_name_lower.
    + by apply adjusted_restored.
Qed.

Lemma send_adjustHeaders_values_witness :
  get [("x-custom-id", "42"); ("constructor", "yes")]
      (toLowerCase "Constructor") = Some "yes".
Proof.
  destruct (send_adjustHeaders_values
              [("x-custom-id", "42"); ("constructor", "yes")]
              ["X-Custom-Id"; "42"; "Constructor"; "yes"])
    as [Hvalue _].
  - apply List.Forall_cons; [|apply List.Forall_cons; [|apply List.Forall_nil]].
    + split; [reflexivity|]. split; [discriminate|]. right. reflexivity.
    + split; [reflexivity|]. split; [discriminate|].
      left. exists "Constructor". split; [|reflexivity].
      do 2 apply list_elem_of_further. apply list_elem_of_here.
  - apply Hvalue. vm_compute. reflexivity.
Defined.

(** C1 (as amended).  The raw list alternates names and values.  Take a
    lower-case key of the transport's headers that is the lower-case form of
    a name of the raw list and of none of its values.  The adjusted headers
    then hold the transport's value under the restored name, which is a name
    of the raw list and is the key up to case; the lower-case spelling is not
    kept beside it: when the two spellings differ there is no entry under the
    lower-case key. *)
Theorem send_adjustHeaders_restores headers pairs h v n :
  transport_keys (raw_of_pairs pairs) headers →
  get headers h = Some v →
  n ∈ pairs.*1 → toLowerCase n = h →
  Forall (fun value => toLowerCase value ≠ h) pairs.*2 →
  ∃ name,
    plain_read (getResponseRawHeaderNames (raw_of_pairs pairs)) h = Own name
    ∧ name ∈ pairs.*1 ∧ toLowerCase name = h
    ∧ send_adjustHeaders headers (raw_of_pairs pairs) !! name = Some v
    ∧ (name ≠ h →
       send_adjustHeaders headers (raw_of_pairs pairs) !! h = None).
Proof.
  intros Hkeys Hg Hn Hh Hvalues.
  destruct (transport_keys_key _ _ _ Hkeys (get_Some_key _ _ _ Hg))
    as [Hhl [Hp _]].
  assert (n ∈ raw_of_pairs pairs) as Hraw
    by (apply elem_of_raw_of_pairs; by left).
  destruct (rawHeaderNames_some _ _ _ Hp Hraw Hh) as [name Hname].
  destruct (rawHeaderNames_lower _ _ _ Hname) as (Hnl & Hnin & _).
  assert (name ∈ pairs.*1) as Hnames.
  { apply elem_of_raw_of_pairs in Hnin as [?|Hv]; [done|].
    rewrite Forall_forall in Hvalues. by destruct (Hvalues name Hv). }
  assert (plain_read (getResponseRawHeaderNames (raw_of_pairs pairs)) h
          = Own name) as Hread
    by (unfold plain_read; by rewrite Hname).
  assert (restored_name (getResponseRawHeaderNames (raw_of_pairs pairs)) h
          = name) as Hrn.
  { unfold restored_name. rewrite Hread. simpl.
    destruct name; [|done]. simpl in *. by subst h. }
  exists name. split; [done|]. split; [done|]. split; [done|]. split.
  - rewrite <- Hrn. by apply adjusted_restored.
  - intros Hne.
    destruct (send_adjustHeaders headers (raw_of_pairs pairs) !! h)
      as [v'|] eqn:E; [|done].
    destruct (adjusted_origin _ _ _ _ Hkeys E) as (h' & Hin & Hk & Hr & _).
    rewrite Hhl in Hk. subst h'. congruence.
Qed.

Lemma send_adjustHeaders_restores_witness :
  ∃ name,
    name ∈ ["Keep-Alive"; "Content-Type"]
    ∧ send_adjustHeaders
        [("keep-alive", "timeout=5"); ("content-type", "text/plain")]
        ["Keep-Alive"; "timeout=5"; "Content-Type"; "text/plain"] !! name
      = Some "text/plain".
Proof.
  destruct (send_adjustHeaders_restores
              [("keep-alive", "timeout=5"); ("content-type", "text/plain")]
              [("Keep-Alive", "timeout=5"); ("Content-Type", "text/plain")]
              "content-type" "text/plain" "Content-Type")
    as (name & _ & Hname & _ & Hvalue & _).
  - apply List.Forall_cons; [|apply List.Forall_cons; [|apply List.Forall_nil]];
      (split; [reflexivity|]; split; [discriminate|]; right; reflexivity).
  - reflexivity.
  - apply list_elem_of_further, list_elem_of_here.
  - reflexivity.
  - apply List.Forall_cons; [|apply List.Forall_cons; [|apply List.Forall_nil]];
      discriminate.
  - exists name. split; [exact Hname | exact Hvalue].
Defined.

(** C1 as stated fails: with the raw name [Content-Type] and the transport
    header [content-type], the adjusted headers have the entry
    [Content-Type] and no entry [content-type]. *)
Lemma send_adjustHeaders_counterexample :
  let headers := [("content-type", "text/plain")] in
  let rawHeaders := ["Content-Type"; "text/plain"] in
  get headers "content-type" = Some "text/plain"
  ∧ toLowerCase "content-type" = "content-type"
  ∧ "Content-Type" ∈ rawHeaders
  ∧ toLowerCase "Content-Type" = "content-type"
  ∧ send_adjustHeaders headers rawHeaders !! "Content-Type"
    = Some "text/plain"
  ∧ send_adjustHeaders headers rawHeaders !! "content-type" = None.
Proof.
  simpl. repeat split; try reflexivity; try set_solver; by vm_compute.
Qed.

(** ** Decoding the body *)

(** C4.  [iconv-lite] always knows [utf8].  Then decoding the body never
    throws: the callback resolves, and the body of the response it resolves
    with is what lines 105-113 leave in [body].  When decoding with the
    declared charset throws and that charset is not [utf8], that body is the
    text decoded as [utf8]. *)
Theorem send_decode_fallback `{Platform} body encoding :
  (∀ b, is_Some (iconv_decode b "utf8")) →
  (∃ decoded, send_decode body encoding = Ok decoded)
  ∧ (iconv_decode body encoding = None → encoding ≠ "utf8" →
     ∃ s, iconv_decode body "utf8" = Some s
          ∧ send_decode body encoding = Ok (Text s))
  ∧ (∀ httpRequest size headersSize response,
       ∃ r, send_callback httpRequest size headersSize None response body
            = Resolved r
            ∧ send_decode body (send_encoding response) = Ok (res_body r)
            ∧ (∀ s, iconv_decode body (send_encoding response) = Some s →
                    res_body r = Text s)
            ∧ (iconv_decode body (send_encoding response) = None →
               send_encoding response ≠ "utf8" →
               ∃ s, iconv_decode body "utf8" = Some s
                    ∧ res_body r = Text s)).
Proof.
  intros Hutf8.
  assert (∀ enc, ∃ decoded, send_decode body enc = Ok decoded) as Htotal.
  { intros enc. unfold send_decode.
    destruct (iconv_decode body enc) as [s|]; [by eexists|].
    destruct (decide (enc ≠ "utf8")); [|by eexists].
    destruct (Hutf8 body) as [s ->]. by eexists. }
  assert (∀ enc, iconv_decode body enc = None → enc ≠ "utf8" →
                 ∃ s, iconv_decode body "utf8" = Some s
                      ∧ send_decode body enc = Ok (Text s)) as Hfallback.
  { intros enc Hfail Hne. destruct (Hutf8 body) as [s Hs]. exists s.
    split; [done|]. unfold send_decode. rewrite Hfail, Hs.
    by destruct (decide (enc ≠ "utf8")). }
  split; [apply Htotal|]. split; [apply Hfallback|].
  intros httpRequest size headersSize response. unfold send_callback.
  destruct (Htotal (send_encoding response)) as [decoded Hd]. rewrite Hd.
  eexists. split; [reflexivity|]. simpl. split; [done|]. split.
  - intros s Hs. unfold send_decode in Hd. rewrite Hs in Hd. congruence.
  - intros Hfail Hne. destruct (Hfallback _ Hfail Hne) as (s & Hs & Hds).
    exists s. split; [done|]. congruence.
Qed.

Lemma send_decode_fallback_witness :
  ∃ r s,
    @send_callback charset_platform
      (sample_request "http://example.com/x" "Basic alice secret") 2 28 None
      sample_response [xff; xfe] = Resolved r
    ∧ sample_decode [xff; xfe] "utf8" = Some s
    ∧ res_body r = Text s.
Proof.
  destruct (@send_decode_fallback charset_platform [xff; xfe] "x-unknown")
    as (_ & _ & Hcallback).
  - intros b. vm_compute. eexists. reflexivity.
  - destruct (Hcallback
                (sample_request "http://example.com/x" "Basic alice secret")
                2%Z 28%Z sample_response) as (r & Hr & _ & _ & Hbody).
    destruct Hbody as (s & Hs & Htext).
    + vm_compute. reflexivity.
    + vm_compute. discriminate.
    + exists r, s. split; [exact Hr|]. split; [exact Hs | exact Htext].
Defined.

(** ** Transport errors *)

Lemma startsWith_truthy m p :
  p ≠ EmptyString → startsWith m p = true → truthy (Some m) = true.
Proof. destruct m, p; done. Qed.

(** C5.  When the transport reports an error the call is rejected with that
    error and never resolved.  The message is replaced by the explanation of
    the [name: value] format exactly when it starts with the header-token
    text of the transport; otherwise the error is passed on as it is. *)
Theorem send_callback_rejects `{Platform} httpRequest size headersSize error
    response body :
  send_callback httpRequest size headersSize (Some error) response body
  = Rejected (send_error error)
  ∧ send_error error
    = (if is_header_token_error error
       then {| err_code := err_code error;
               message := Some header_format_explanation |}
       else error).
Proof.
  split; [done|]. unfold send_error, is_header_token_error.
  destruct (message error) as [m|]; [|done].
  destruct (startsWith m header_token_error) eqn:E.
  - by rewrite (startsWith_truthy m header_token_error).
  - by rewrite andb_false_r.
Qed.

(** ** The proxy *)

(** C6.  The proxy handed to the transport is the configured one unless the
    request is excluded.  [strictSSL] is the [proxyStrictSSL] setting when a
    non-empty proxy is in effect, and false in every other case: the request
    is excluded, or no proxy or an empty one is configured.  So with the
    setting on, [strictSSL] is on exactly when a non-empty proxy is in
    effect. *)
Theorem send_strictSSL `{Platform} settings httpRequest certificate ignore :
  getRequestCertificate (req_url httpRequest) = Ok certificate →
  ignoreProxy (req_url httpRequest) (excludeHostsForProxy settings) = Ok ignore →
  ∃ o, send_options settings httpRequest = Ok o
       ∧ opt_proxy o = (if ignore then None else proxy settings)
       ∧ ((∃ p, opt_proxy o = Some p ∧ p ≠ EmptyString) →
          opt_strictSSL o = proxyStrictSSL settings)
       ∧ (ignore = true ∨ proxy settings = None
          ∨ proxy settings = Some EmptyString →
          opt_strictSSL o = false)
       ∧ (proxyStrictSSL settings = true →
          (opt_strictSSL o = true
           ↔ ∃ p, opt_proxy o = Some p ∧ p ≠ EmptyString)).
Proof.
  intros Hc Hi.
  destruct (send_options_Ok settings httpRequest certificate ignore Hc Hi)
    as (o & Ho & _ & _ & Hproxy & Hstrict).
  exists o. split; [done|]. split; [done|].
  rewrite Hstrict. clear Hstrict.
  destruct (truthy (opt_proxy o)) eqn:E.
  - apply truthy_Some_iff in E as Hp. split; [done|]. split; [|done].
    rewrite Hproxy in E.
    intros [->|[Hn|Hn]]; [done | |]; rewrite Hn in E; by destruct ignore.
  - assert (¬ ∃ p, opt_proxy o = Some p ∧ p ≠ EmptyString) as Hn.
    { intros Hp. apply truthy_Some_iff in Hp. congruence. }
    split; [done|]. split; [done|]. intros _. split; [done|]. done.
Qed.

Lemma send_strictSSL_witness :
  ∃ o, @send_options sample_platform sample_settings
         (sample_request "http://foo.com:9090/x" "Basic alice secret") = Ok o
       ∧ opt_proxy o = Some "http://proxy.local:3128"
       ∧ opt_strictSSL o = true.
Proof.
  destruct (@send_strictSSL sample_platform sample_settings
              (sample_request "http://foo.com:9090/x" "Basic alice secret")
              no_certificate false eq_refl eq_refl)
    as (o & Ho & Hproxy & Hstrict & _).
  exists o. split; [exact Ho|]. split; [exact Hproxy|].
  rewrite Hstrict; [reflexivity|].
  exists "http://proxy.local:3128". split; [exact Hproxy | discriminate].
Defined.

(** ** The method of a curl command *)

Lemma curl_truthy_falsy v : Curl.truthy v = false ↔ curl_falsy v.
Proof.
  unfold curl_falsy. destruct v as [|[]|z|[|c r]|l]; simpl;
    try (split; [by auto | done]);
    try (split; [done | by intros [?|[?|[?|?]]]]).
  destruct (Z.eqb_spec z 0) as [->|Hz]; simpl.
  - split; [by auto | done].
  - split; [done|]. intros [?|[?|[[= ->]|?]]]; done.
Qed.

Lemma curl_truthy_not_falsy v : Curl.truthy v = true ↔ ¬ curl_falsy v.
Proof.
  rewrite <- curl_truthy_falsy. by destruct (Curl.truthy v).
Qed.

(** C7 (as amended).  The method is the value of [-X] unless that value is
    [undefined], [false], [0] or the empty string, and else the value of
    [--request] unless that one is; a flag given with such a value counts as
    absent.  Otherwise the method is [POST] unless the body is one of these
    four values, and [GET] when it is.  The body is the value of [-d], else
    of [--data], each unless it is one of the four values, and else the
    value of [--data-binary] whatever it is. *)
Theorem curl_parse_method_values (parsedArguments : Curl.ParsedArguments) :
  let X := Curl.arg_X parsedArguments in
  let request := Curl.arg_request parsedArguments in
  let d := Curl.arg_d parsedArguments in
  let data := Curl.arg_data parsedArguments in
  let body := Curl.parse_body parsedArguments in
  let method := Curl.parse_method parsedArguments in
  (¬ curl_falsy X → method = X)
  ∧ (curl_falsy X → ¬ curl_falsy request → method = request)
  ∧ (curl_falsy X → curl_falsy request → ¬ curl_falsy body →
     method = Curl.Str "POST")
  ∧ (curl_falsy X → curl_falsy request → curl_falsy body →
     method = Curl.Str "GET")
  ∧ (¬ curl_falsy d → body = d)
  ∧ (curl_falsy d → ¬ curl_falsy data → body = data)
  ∧ (curl_falsy d → curl_falsy data →
     body = Curl.arg_data_binary parsedArguments).
Proof.
  intros X request d data body method.
  subst X request d data body method.
  unfold Curl.parse_method, Curl.parse_body, Curl.or.
  repeat split; intros;
    repeat match goal with
      | H : ¬ curl_falsy _ |- _ => apply curl_truthy_not_falsy in H
      | H : curl_falsy _ |- _ => apply curl_truthy_falsy in H
      end;
    unfold Curl.parse_body, Curl.or in *;
    repeat match goal with
      | H : Curl.truthy ?v = _ |- context [Curl.truthy ?v] => rewrite H
      end; simpl;
    repeat match goal with
      | H : Curl.truthy ?v = _ |- context [Curl.truthy ?v] => rewrite H
      end; done.
Qed.

Lemma curl_parse_method_values_witness :
  Curl.parse_method
    {| Curl.arg_X := Curl.Undefined; Curl.arg_request := Curl.Str "PUT";
       Curl.arg_d := Curl.Str "{}"; Curl.arg_data := Curl.Undefined;
       Curl.arg_data_binary := Curl.Undefined |}
  = Curl.Str "PUT".
Proof.
  destruct (curl_parse_method_values
              {| Curl.arg_X := Curl.Undefined;
                 Curl.arg_request := Curl.Str "PUT";
                 Curl.arg_d := Curl.Str "{}"; Curl.arg_data := Curl.Undefined;
                 Curl.arg_data_binary := Curl.Undefined |})
    as (_ & Hrequest & _).
  apply Hrequest.
  - left. reflexivity.
  - intros [Hf|[Hf|[Hf|Hf]]]; discriminate Hf.
Defined.

(** C7 as stated fails for a flag that is present with the value [0]: with
    [--data-binary 0] the body [0] is extracted and the method is [GET], not
    [POST]; with [-X 0] and no body the method is [GET], not the value of
    [-X]. *)
Lemma curl_parse_method_counterexample :
  (let parsedArguments :=
     {| Curl.arg_X := Curl.Undefined; Curl.arg_request := Curl.Undefined;
        Curl.arg_d := Curl.Undefined; Curl.arg_data := Curl.Undefined;
        Curl.arg_data_binary := Curl.Number 0 |} in
   Curl.parse_body parsedArguments = Curl.Number 0
   ∧ Curl.parse_method parsedArguments = Curl.Str "GET")
  ∧ (let parsedArguments :=
       {| Curl.arg_X := Curl.Number 0; Curl.arg_request := Curl.Undefined;
          Curl.arg_d := Curl.Undefined; Curl.arg_data := Curl.Undefined;
          Curl.arg_data_binary := Curl.Undefined |} in
     Curl.arg_X parsedArguments = Curl.Number 0
     ∧ Curl.parse_method parsedArguments = Curl.Str "GET").
Proof. repeat split. Qed.

(** ** Further properties of the header lookup *)

(** X1.  [getHeaderValue] returns [null] exactly when there is no header
    object or none of its keys is the queried name up to case. *)
Theorem getHeaderValue_None_iff (hs : option JsObject) name :
  getHeaderValue hs name = None
  ↔ hs = None
    ∨ ∃ h, hs = Some h ∧ Forall (fun k => ¬ same_name k name) (keys h).
Proof.
  destruct hs as [h|].
  - rewrite getHeaderValue_first_match, first_match_None. split.
    + intros Hall. right. by exists h.
    + intros [?|(h' & [= <-] & Hall)]; done.
  - split; [by left | done].
Qed.

Lemma first_match_same_query h n n' :
  same_name n n' → first_match h n = first_match h n'.
Proof.
  unfold same_name. intros Hn.
  induction h as [|[k v] rest IH]; simpl; [done|].
  unfold same_name_dec, decide, same_name. rewrite Hn, IH. done.
Qed.

(** X2.  The case of the queried name does not matter: two queries that are
    the same name up to case get the same answer from every header object. *)
Theorem getHeaderValue_query_case (hs : option JsObject) n n' :
  same_name n n' → getHeaderValue hs n = getHeaderValue hs n'.
Proof.
  intros Hn. destruct hs as [h|]; [|done].
  rewrite !getHeaderValue_first_match. by apply first_match_same_query.
Qed.

Lemma getHeaderValue_query_case_witness :
  getHeaderValue (Some [("Content-Type", "text/plain")]) "content-type"
  = getHeaderValue (Some [("Content-Type", "text/plain")]) "CONTENT-TYPE".
Proof.
  apply getHeaderValue_query_case. vm_compute. reflexivity.
Defined.

(** ** Further properties of the default [User-Agent] *)

Lemma get_set_ne (o : JsObject) k v k' : k ≠ k' → get (set o k v) k' = get o k'.
Proof.
  intros Hne. induction o as [|[k0 v0] rest IH]; simpl.
  - by destruct (decide (k = k')).
  - destruct (decide (k0 = k)) as [->|Hk0]; simpl.
    + by destruct (decide (k = k')).
    + by rewrite IH.
Qed.

Lemma get_set_eq (o : JsObject) k v : get (set o k v) k = Some v.
Proof.
  induction o as [|[k0 v0] rest IH]; simpl.
  - by destruct (decide (k = k)).
  - destruct (decide (k0 = k)) as [->|Hk0]; simpl.
    + by destruct (decide (k = k)).
    + by destruct (decide (k0 = k)).
Qed.

Lemma set_set (o : JsObject) k v : set (set o k v) k v = set o k v.
Proof.
  induction o as [|[k0 v0] rest IH]; simpl.
  - by destruct (decide (k = k)).
  - destruct (decide (k0 = k)) as [->|Hk0]; simpl.
    + by destruct (decide (k = k)).
    + destruct (decide (k0 = k)); [done|]. by rewrite IH.
Qed.

(** X3.  Writing the default [User-Agent] touches no other header: every key
    other than [User-Agent] itself reads as before; and when the request has
    a header that is [User-Agent] up to case with a non-empty value first,
    the header object is left exactly as it was. *)
Theorem send_userAgent_keeps_headers headers d :
  (∀ k, k ≠ "User-Agent" → get (send_userAgent headers d) k = get headers k)
  ∧ (∀ v, first_match headers "User-Agent" = Some v → v ≠ EmptyString →
          send_userAgent headers d = headers).
Proof.
  split.
  - intros k Hk. unfold send_userAgent.
    destruct (injects_userAgent headers); [|done]. by apply get_set_ne.
  - intros v Hv Hne. unfold send_userAgent, injects_userAgent.
    rewrite getHeaderValue_first_match, Hv. by destruct v.
Qed.

Lemma send_userAgent_keeps_headers_witness :
  send_userAgent [("user-agent", "curl/8")] "vscode-restclient"
  = [("user-agent", "curl/8")].
Proof.
  destruct (send_userAgent_keeps_headers
              [("user-agent", "curl/8")] "vscode-restclient") as [_ Hkeep].
  apply (Hkeep "curl/8"); [vm_compute; reflexivity | discriminate].
Defined.

(** X4.  After the step a header that is [User-Agent] up to case is always
    there, and the step is idempotent: as the header object is the request's
    own, sending the same request again adds nothing. *)
Theorem send_userAgent_idempotent headers d :
  (∃ k, k ∈ keys (send_userAgent headers d) ∧ same_name k "User-Agent")
  ∧ send_userAgent (send_userAgent headers d) d = send_userAgent headers d.
Proof.
  split.
  - unfold send_userAgent. destruct (injects_userAgent headers) eqn:E.
    + exists "User-Agent". split; [|done].
      apply (get_Some_key _ _ d), get_set_eq.
    + unfold injects_userAgent in E. rewrite getHeaderValue_first_match in E.
      destruct (first_match headers "User-Agent") as [v|] eqn:Hv; [|done].
      destruct (decide (Forall (fun k => ¬ same_name k "User-Agent")
                          (keys headers))) as [Hall|Hex].
      * apply first_match_None in Hall. congruence.
      * apply not_Forall_Exists in Hex; [|intros ?; apply _].
        apply Exists_exists in Hex as (k & Hk & Hs). exists k. split; [done|].
        by destruct (decide (same_name k "User-Agent")).
  - unfold send_userAgent at 2 3.
    destruct (injects_userAgent headers) eqn:E.
    + unfold send_userAgent.
      destruct (injects_userAgent (set headers "User-Agent" d)); [|done].
      apply set_set.
    + unfold send_userAgent. by rewrite E.
Qed.

(** ** Further properties of the proxy exclusion *)

Lemma ignoreProxy_true_inv `{Platform} requestUrl l :
  ignoreProxy requestUrl (Some l) = Ok true →
  ∃ h e, hostname (url_parse requestUrl) = Some h ∧ e ∈ l
         ∧ entry_matches (toLowerCase h) (port (url_parse requestUrl))
             (toLowerCase e).
Proof.
  intros Ht. destruct (decide (l = [])) as [->|Hne]; [done|].
  destruct (hostname (url_parse requestUrl)) as [h|] eqn:Hh;
    [|by apply ignoreProxy_no_hostname in Ht].
  rewrite (ignoreProxy_nonempty _ _ _ Hne Hh) in Ht.
  assert (ignoreProxy_loop (toLowerCase h) (port (url_parse requestUrl))
            (uniq (map toLowerCase l)) = true) as Hl by congruence.
  apply ignoreProxy_loop_true in Hl as (e & He & Hm).
  apply elem_of_uniq, list_elem_of_fmap in He as (e0 & -> & He0).
  by exists h, e0.
Qed.

(** X5.  [ignoreProxy] throws exactly when the exclusion list is not empty
    and the URL has no host name; with a missing or empty list the URL is
    not even parsed. *)
Theorem ignoreProxy_throws_iff `{Platform} requestUrl excludeHostsForProxy e :
  ignoreProxy requestUrl excludeHostsForProxy = Throw e
  ↔ (∃ l, excludeHostsForProxy = Some l ∧ l ≠ []
          ∧ hostname (url_parse requestUrl) = None)
    ∧ e = TypeError "Cannot read property 'toLowerCase' of null".
Proof.
  destruct excludeHostsForProxy as [l|];
    [|split; [done | by intros [(? & ? & _) _]]].
  destruct (decide (l = [])) as [->|Hne].
  { split; [done|]. by intros [(l & [= <-] & ? & _) _]. }
  destruct (hostname (url_parse requestUrl)) as [h|] eqn:Hh.
  - rewrite (ignoreProxy_nonempty _ _ _ Hne Hh).
    split; [done|]. by intros [(l' & _ & _ & ?) _].
  - destruct l as [|x l]; [done|]. unfold ignoreProxy. rewrite Hh. split.
    + intros [= <-]. split; [|done]. by exists (x :: l).
    + by intros [_ ->].
Qed.

(** X6.  Only the set of lower-cased entries counts: two exclusion lists
    with the same entries up to case, order and repetition give the same
    outcome for every URL. *)
Theorem ignoreProxy_entry_set `{Platform} requestUrl l l' :
  (∀ x, x ∈ map toLowerCase l ↔ x ∈ map toLowerCase l') →
  ignoreProxy requestUrl (Some l) = ignoreProxy requestUrl (Some l').
Proof.
  intros Hset.
  destruct (decide (l = [])) as [->|Hne].
  { destruct l' as [|y l']; [done|].
    exfalso. apply (elem_of_nil (toLowerCase y)), Hset. simpl. set_solver. }
  destruct (decide (l' = [])) as [->|Hne'].
  { destruct l as [|y l]; [done|].
    exfalso. apply (elem_of_nil (toLowerCase y)), Hset. simpl. set_solver. }
  destruct (hostname (url_parse requestUrl)) as [h|] eqn:Hh.
  - rewrite (ignoreProxy_nonempty _ _ _ Hne Hh),
      (ignoreProxy_nonempty _ _ _ Hne' Hh).
    f_equal. apply Bool.eq_iff_eq_true. rewrite !ignoreProxy_loop_true.
    split; intros (e & He & Hm); exists e; split; try done;
      rewrite elem_of_uniq in He |- *; by apply Hset.
  - destruct l, l'; try done. unfold ignoreProxy. by rewrite Hh.
Qed.

Lemma ignoreProxy_entry_set_witness :
  @ignoreProxy sample_platform "http://foo.com:8080/x"
    (Some ["Example.COM"; "foo.com:8080"; "example.com"])
  = @ignoreProxy sample_platform "http://foo.com:8080/x"
      (Some ["FOO.com:8080"; "example.com"]).
Proof.
  apply ignoreProxy_entry_set. intros x.
  change (x ∈ ["example.com"; "foo.com:8080"; "example.com"]
          ↔ x ∈ ["foo.com:8080"; "example.com"]).
  rewrite !elem_of_cons. tauto.
Defined.

Lemma lower_char_colon c :
  bool_decide (lower_char c = ":"%char) = bool_decide (c = ":"%char).
Proof. destruct c as [[] [] [] [] [] [] [] []]; vm_compute; reflexivity. Qed.

Lemma count_char_toLowerCase s :
  count_char (toLowerCase s) ":" = count_char s ":".
Proof.
  induction s as [|c r IH]; simpl; [done|].
  by rewrite lower_char_colon, IH.
Qed.

Lemma count_char_app a b ch :
  count_char (a +:+ b) ch = (count_char a ch + count_char b ch)%nat.
Proof. induction a as [|c a IH]; simpl; [done|]. rewrite IH. lia. Qed.

Lemma count_char_not_included s ch :
  includes s ch = false → count_char s ch = 0%nat.
Proof.
  induction s as [|c r IH]; simpl; [done|].
  intros Hi. apply orb_false_iff in Hi as [Hc Hr].
  rewrite Hc. by rewrite IH.
Qed.

Lemma entry_matches_colons hostName port entry :
  entry_matches hostName port entry → (count_char entry ":" ≤ 1)%nat.
Proof.
  intros [[Hn _]|(h & p & -> & Hh & Hp & _)].
  - rewrite (count_char_not_included _ _ Hn). lia.
  - rewrite count_char_app. simpl.
    rewrite (count_char_not_included _ _ Hh), (count_char_not_included _ _ Hp).
    lia.
Qed.

(** X7.  An entry with two or more colons, such as an IPv6 literal, never
    excludes anything: a list made of such entries gives no bypass for any
    URL. *)
Theorem ignoreProxy_colons `{Platform} requestUrl l :
  Forall (fun e => (2 ≤ count_char e ":")%nat) l →
  ignoreProxy requestUrl (Some l) ≠ Ok true.
Proof.
  intros Hall Ht. apply ignoreProxy_true_inv in Ht as (h & e & _ & He & Hm).
  apply entry_matches_colons in Hm. rewrite count_char_toLowerCase in Hm.
  rewrite Forall_forall in Hall. specialize (Hall e He). lia.
Qed.

Lemma ignoreProxy_colons_witness :
  @ignoreProxy sample_platform "http://foo.com:8080/x"
    (Some ["[::1]:8080"; "fe80::1"]) ≠ Ok true.
Proof.
  apply ignoreProxy_colons. repeat constructor; vm_compute; lia.
Defined.

(** ** Further properties of the restored header names *)

Lemma inherited_None_not_proto h : inherited h = None → h ≠ "__proto__".
Proof. by intros Hi ->. Qed.

(** X8.  When a header name occurs several times in the raw list, in
    whatever case, the spelling of its last occurrence is the one the
    dictionary gives back; the elements of the raw list count alike, names
    and values.  Nothing is stored for [__proto__]. *)
Theorem getResponseRawHeaderNames_last pre x post :
  toLowerCase x ≠ "__proto__" →
  Forall (fun y => toLowerCase y ≠ toLowerCase x) post →
  plain_read (getResponseRawHeaderNames (pre ++ x :: post)) (toLowerCase x)
  = Own x.
Proof.
  intros Hp Hpost. unfold plain_read, getResponseRawHeaderNames.
  rewrite foldl_app. simpl.
  rewrite (rawHeaderNames_fold_untouched _ _ _ Hpost).
  by rewrite plain_write_lookup, decide_True.
Qed.

Lemma getResponseRawHeaderNames_last_witness :
  plain_read
    (getResponseRawHeaderNames
       (["set-cookie"; "a=1"] ++ "Set-Cookie" :: ["b=2"]))
    (toLowerCase "Set-Cookie") = Own "Set-Cookie".
Proof.
  apply getResponseRawHeaderNames_last.
  - discriminate.
  - apply List.Forall_cons; [discriminate | apply List.Forall_nil].
Defined.

(** X9.  Reading a lower-case name from the dictionary of raw names gives
    [undefined] exactly when no element of the raw list lower-cases to it and
    [Object.prototype] does not define it. *)
Theorem getResponseRawHeaderNames_Absent_iff rawHeaders h :
  plain_read (getResponseRawHeaderNames rawHeaders) h = Absent
  ↔ inherited h = None ∧ Forall (fun y => toLowerCase y ≠ h) rawHeaders.
Proof.
  unfold plain_read. split.
  - destruct (getResponseRawHeaderNames rawHeaders !! h) as [r|] eqn:E;
      [done|].
    destruct (inherited h) eqn:Hi; [done|]. intros _. split; [done|].
    apply Forall_forall. intros y Hy Hlow.
    destruct (rawHeaderNames_some _ _ _ (inherited_None_not_proto _ Hi) Hy Hlow)
      as [r Hr].
    congruence.
  - intros [Hi Hall]. unfold getResponseRawHeaderNames.
    rewrite (rawHeaderNames_fold_untouched _ _ _ Hall), lookup_empty.
    by rewrite Hi.
Qed.

Lemma get_None_not_key (headers : JsObject) k :
  k ∉ keys headers → get headers k = None.
Proof.
  induction headers as [|[k' v'] rest IH]; simpl; [done|].
  intros Hk. apply not_elem_of_cons in Hk as [Hne Hk].
  destruct (decide (k' = k)); [congruence | by apply IH].
Qed.

Lemma get_key_is_Some (headers : JsObject) k :
  k ∈ keys headers → is_Some (get headers k).
Proof.
  induction headers as [|[k' v'] rest IH]; simpl.
  - intros Hk. by apply elem_of_nil in Hk.
  - intros Hk. destruct (decide (k' = k)); [by eexists|].
    apply elem_of_cons in Hk as [?|Hk]; [congruence | by apply IH].
Qed.

Lemma plain_write_insert (o : gmap string string) k v :
  k ≠ "__proto__" → plain_write o k v = <[k := v]> o.
Proof. intros Hk. unfold plain_write. by rewrite decide_False. Qed.

Lemma adjust_unmatched dic headers ks (acc : gmap string string) k :
  (∀ h, h ∈ ks →
        h ∈ keys headers ∧ h ≠ "__proto__" ∧ plain_read dic h = Absent) →
  foldl (adjust_step dic headers) acc ks !! k
  = if decide (k ∈ ks) then get headers k else acc !! k.
Proof.
  revert acc. induction ks as [|x ks IH]; intros acc Hks; simpl.
  - destruct (decide (k ∈ [])) as [Hk|_]; [by apply elem_of_nil in Hk | done].
  - rewrite IH by (intros h Hh; apply Hks; set_solver).
    destruct (Hks x) as (Hx & Hp & Hread); [set_solver|].
    destruct (get_key_is_Some _ _ Hx) as [vx Hvx].
    rewrite (adjust_step_write _ _ _ _ _ Hvx).
    assert (restored_name dic x = x) as ->
      by (unfold restored_name; by rewrite Hread).
    rewrite (plain_write_insert _ _ _ Hp).
    destruct (decide (k ∈ ks)) as [Hk|Hk].
    + rewrite decide_True by set_solver. done.
    + destruct (decide (x = k)) as [->|Hne].
      * rewrite decide_True by set_solver. by rewrite lookup_insert_eq.
      * rewrite decide_False by set_solver. by rewrite lookup_insert_ne.
Qed.

(** X10.  When no key of the transport's headers is the lower-case form of
    an element of the raw list (in particular when the raw list is empty),
    and none is a name that [Object.prototype] defines, the adjusted headers
    are the transport's headers, key by key. *)
Theorem send_adjustHeaders_unmatched headers rawHeaders k :
  (∀ h, h ∈ keys headers →
        inherited h = None
        ∧ Forall (fun y => toLowerCase y ≠ h) rawHeaders) →
  send_adjustHeaders headers rawHeaders !! k = get headers k.
Proof.
  intros Hun. unfold send_adjustHeaders. rewrite adjust_unmatched.
  - destruct (decide (k ∈ keys headers)) as [Hk|Hk]; [done|].
    rewrite lookup_empty. symmetry. by apply get_None_not_key.
  - intros h Hh. destruct (Hun h Hh) as [Hi Hall]. split; [done|].
    split; [by apply inherited_None_not_proto|].
    by apply getResponseRawHeaderNames_Absent_iff.
Qed.

Lemma send_adjustHeaders_unmatched_witness :
  send_adjustHeaders [("etag", "abc"); ("content-length", "3")] [] !! "etag"
  = get [("etag", "abc"); ("content-length", "3")] "etag".
Proof.
  apply send_adjustHeaders_unmatched. intros h Hh.
  split; [|apply List.Forall_nil].
  apply elem_of_cons in Hh as [->|Hh]; [reflexivity|].
  apply list_elem_of_singleton in Hh as ->. reflexivity.
Defined.

Lemma adjust_dom dic headers ks (acc : gmap string string) :
  (∀ h, h ∈ ks → h ∈ keys headers ∧ restored_name dic h ≠ "__proto__") →
  dom (foldl (adjust_step dic headers) acc ks)
  = dom acc ∪ list_to_set (restored_name dic <$> ks).
Proof.
  revert acc. induction ks as [|x ks IH]; intros acc Hks; simpl.
  - set_solver.
  - rewrite IH by (intros h Hh; apply Hks; set_solver).
    destruct (Hks x) as [Hx Hp]; [set_solver|].
    destruct (get_key_is_Some headers x Hx) as [vx Hvx].
    rewrite (adjust_step_write _ _ _ _ _ Hvx), (plain_write_insert _ _ _ Hp).
    rewrite dom_insert_L. set_solver.
Qed.

(** X11.  Restoring the case neither merges nor multiplies headers: when
    the transport's keys are lower-case, distinct and resolved without
    [Object.prototype], the adjusted headers have exactly as many entries as
    the transport delivered. *)
Theorem send_adjustHeaders_size headers rawHeaders :
  transport_keys rawHeaders headers →
  NoDup (keys headers) →
  size (send_adjustHeaders headers rawHeaders) = length headers.
Proof.
  intros Hkeys Hnd. rewrite <- size_dom. unfold send_adjustHeaders.
  rewrite adjust_dom.
  - rewrite dom_empty_L, (left_id_L ∅ (∪)), size_list_to_set.
    + rewrite length_fmap. unfold keys. by rewrite length_map.
    + apply NoDup_fmap_2_strong; [|done].
      intros a b Ha Hb Hab.
      destruct (transport_keys_key _ _ _ Hkeys Ha) as [Hla Hka].
      destruct (transport_keys_key _ _ _ Hkeys Hb) as [Hlb Hkb].
      rewrite <- (restored_name_lower rawHeaders a Hla Hka).
      rewrite <- (restored_name_lower rawHeaders b Hlb Hkb).
      by rewrite Hab.
  - intros h Hh. split; [done|].
    destruct (transport_keys_key _ _ _ Hkeys Hh).
    by apply restored_name_not_proto.
Qed.

Lemma send_adjustHeaders_size_witness :
  size (send_adjustHeaders
          [("x-custom-id", "42"); ("content-type", "text/plain")]
          ["X-Custom-Id"; "42"; "Content-Type"; "text/plain"])
  = length [("x-custom-id", "42"); ("content-type", "text/plain")].
Proof.
  apply send_adjustHeaders_size.
  - apply List.Forall_cons; [|apply List.Forall_cons; [|apply List.Forall_nil]];
      (split; [reflexivity|]; split; [discriminate|]; right; reflexivity).
  - apply NoDup_cons. split; [|apply NoDup_singleton].
    intros Hin. apply list_elem_of_singleton in Hin. discriminate Hin.
Defined.

(** ** When credentials are set *)

Lemma includes_split a ch :
  includes a ch = true →
  ∃ s r, a = s +:+ String ch r ∧ includes s ch = false.
Proof.
  induction a as [|c a IH]; simpl; [done|].
  destruct (bool_decide (c = ch)) eqn:E; simpl.
  - intros _. apply bool_decide_eq_true in E as ->. by exists EmptyString, a.
  - intros Hi. destruct (IH Hi) as (s & r & -> & Hs).
    exists (String c s), r. split; [done|]. simpl. by rewrite E.
Qed.

Lemma starts_with_space_trimStart s : starts_with_space (trimStart s) = false.
Proof.
  induction s as [|c r IH]; simpl; [done|].
  destruct (is_space c) eqn:E; [done|]. simpl. done.
Qed.

Lemma starts_with_space_trimEnd s :
  starts_with_space s = false → starts_with_space (trimEnd s) = false.
Proof.
  destruct s as [|c r]; simpl; [done|]. intros Hc.
  destruct (trimEnd r); by rewrite ?Hc.
Qed.

Lemma ends_with_space_trimEnd s : ends_with_space (trimEnd s) = false.
Proof.
  induction s as [|c r IH]; simpl; [done|].
  destruct (trimEnd r) as [|d r'] eqn:E.
  - destruct (is_space c) eqn:Hc; simpl; done.
  - exact IH.
Qed.

Lemma ends_with_space_snoc a c : ends_with_space (a +:+ String c EmptyString) = is_space c.
Proof.
  induction a as [|x a IH]; simpl; [done|].
  rewrite <- IH. by destruct a.
Qed.

Lemma trim_two_parts t p0 p1 :
  split (trim t) " " = [p0; p1] →
  trim t = p0 +:+ String " " p1
  ∧ p0 ≠ EmptyString ∧ p1 ≠ EmptyString
  ∧ includes p0 " " = false ∧ includes p1 " " = false.
Proof.
  intros Hs. pose proof (join_split (trim t) " ") as Hj.
  pose proof (split_parts (trim t) " ") as Hp.
  rewrite Hs in Hj, Hp. rewrite join_cons in Hj. simpl in Hj.
  inversion Hp as [|? ? H0 Hrest]; subst. inversion Hrest as [|? ? H1 _]; subst.
  split; [done|].
  assert (starts_with_space (trim t) = false) as Hst
    by apply starts_with_space_trimEnd, starts_with_space_trimStart.
  assert (ends_with_space (trim t) = false) as Hen
    by apply ends_with_space_trimEnd.
  rewrite <- Hj in Hst, Hen.
  split; [by intros ->|]. split; [|done].
  intros ->. by rewrite ends_with_space_snoc in Hen.
Qed.

(** X12.  Credentials are set only from a value that begins with [Basic] or
    [Digest] in exactly this spelling and a space, and whose remainder,
    trimmed, is two parts around one space; the user and the password are
    then those parts, neither empty nor containing a space, and
    [sendImmediately] tells [Basic] from [Digest]. *)
Theorem send_auth_inversion a c :
  send_auth (Some a) = Some c →
  ∃ scheme rest,
    (scheme = "Basic" ∨ scheme = "Digest")
    ∧ a = scheme +:+ String " " rest
    ∧ trim rest = user c +:+ String " " (pass c)
    ∧ user c ≠ EmptyString ∧ pass c ≠ EmptyString
    ∧ includes (user c) " " = false ∧ includes (pass c) " " = false
    ∧ sendImmediately c = bool_decide (scheme = "Basic").
Proof.
  unfold send_auth. destruct (truthy (Some a)); [|done].
  destruct (decide (send_auth_scheme a = "Digest" ∨ send_auth_scheme a = "Basic"))
    as [Hscheme|]; [|done].
  destruct (includes a " ") eqn:Hinc;
    [|rewrite (substr_no_scheme _ Hinc) in Hscheme; by destruct Hscheme].
  apply includes_split in Hinc as (s & rest & -> & Hs).
  rewrite (substr_scheme _ _ Hs) in *.
  unfold send_auth_params. rewrite (substr_rest _ _ Hs).
  change (trim (String " " rest)) with (trim rest).
  destruct (split (trim rest) " ") as [|p0 [|p1 [|? ?]]] eqn:Hsplit; try done.
  intros [= <-]. simpl.
  apply trim_two_parts in Hsplit as (Ht & Hp0 & Hp1 & Hn0 & Hn1).
  exists s, rest. repeat split; try done. by destruct Hscheme; [right | left].
Qed.

Lemma send_auth_inversion_witness :
  ∃ scheme rest,
    "Digest bob hunter2" = scheme +:+ String " " rest
    ∧ trim rest = "bob" +:+ String " " "hunter2".
Proof.
  destruct (send_auth_inversion "Digest bob hunter2"
              {| user := "bob"; pass := "hunter2"; sendImmediately := false |})
    as (scheme & rest & _ & Ha & Ht & _).
  - vm_compute. reflexivity.
  - exists scheme, rest. split; [exact Ha | exact Ht].
Defined.

(** ** The size counters *)

Lemma on_data_fold size chunks :
  foldl on_data size chunks
  = (size + Z.of_nat (length (concat chunks)))%Z.
Proof.
  revert size. induction chunks as [|d chunks IH]; intros size; simpl.
  - lia.
  - rewrite IH. unfold on_data. rewrite length_app. lia.
Qed.

(** X13.  The received size is the number of bytes of the body, however the
    transport cuts the body into chunks. *)
Theorem received_size_total chunks chunks' :
  received_size chunks = Z.of_nat (length (concat chunks))
  ∧ (concat chunks = concat chunks' →
     received_size chunks = received_size chunks').
Proof.
  unfold received_size. rewrite !on_data_fold. split; [lia|].
  intros ->. done.
Qed.

Lemma received_size_total_witness :
  received_size [[x01; x02]; [x03]] = received_size [[x01]; []; [x02; x03]].
Proof.
  destruct (received_size_total [[x01; x02]; [x03]] [[x01]; []; [x02; x03]])
    as [_ Hsame].
  apply Hsame. reflexivity.
Defined.

Lemma foldl_Zadd_shift a l : foldl Z.add a l = (a + foldl Z.add 0 l)%Z.
Proof.
  revert a. induction l as [|x l IH]; intros a; simpl; [lia|].
  rewrite (IH (a + x)%Z), (IH (0 + x)%Z). lia.
Qed.

Lemma raw_of_pairs_lengths pairs :
  (foldl Z.add 0
     (map (fun h => Z.of_nat (String.length h)) (raw_of_pairs pairs))
   + Z.of_nat (length pairs))%Z
  = header_chars pairs.
Proof.
  induction pairs as [|[n v] pairs IH]; simpl; [done|].
  rewrite foldl_Zadd_shift. rewrite <- IH. lia.
Qed.

Lemma raw_of_pairs_length pairs :
  length (raw_of_pairs pairs) = (2 * length pairs)%nat.
Proof. induction pairs as [|[n v] pairs IH]; simpl; [done|]. rewrite IH. lia. Qed.

(** X14.  For a raw header list that alternates names and values, as the
    transport delivers it, the header size grows by a whole number: the
    characters of all names and values, and one more for each header. *)
Theorem on_response_pairs headersSize pairs :
  Qeq (on_response headersSize (Some (raw_of_pairs pairs)))
      (headersSize + inject_Z (header_chars pairs))%Q.
Proof.
  unfold on_response. rewrite <- raw_of_pairs_lengths.
  rewrite raw_of_pairs_length, inject_Z_plus.
  assert (Qeq (Z.of_nat (2 * length pairs) # 2)
              (inject_Z (Z.of_nat (length pairs)))) as ->.
  { unfold Qeq, inject_Z. simpl. lia. }
  symmetry. apply Qplus_assoc.
Qed.

(** ** Folding the text of a curl command *)

Lemma string_pair_ind (P : string → Prop) :
  P EmptyString →
  (∀ c, P (String c EmptyString)) →
  (∀ c d r, P r → P (String d r) → P (String c (String d r))) →
  ∀ s, P s.
Proof.
  intros H0 H1 H2 s.
  assert (P s ∧ ∀ c, P (String c s)) as [? _]; [|done].
  induction s as [|d r [IHr IHdr]]; [by split|].
  split; [apply IHdr|]. intros c. apply H2; [done | apply IHdr].
Qed.

Lemma mergeIntoSingleLine_app a b :
  starts_with_line_break b = false →
  CurlText.mergeIntoSingleLine (a +:+ b)
  = CurlText.mergeIntoSingleLine a +:+ CurlText.mergeIntoSingleLine b.
Proof.
  intros Hb. induction a as [|c|c d r IHr IHdr] using string_pair_ind.
  - done.
  - destruct b as [|d b']; [done|]. simpl in *. rewrite Hb.
    by rewrite andb_false_r.
  - change (String c (String d r) +:+ b) with (String c (String d (r +:+ b))).
    change (String d (r +:+ b)) with (String d r +:+ b) in IHdr.
    simpl CurlText.mergeIntoSingleLine at 1 2.
    destruct (bool_decide (c = "\"%char) && CurlText.is_line_break d).
    + exact IHr.
    + simpl in IHdr |- *. by rewrite IHdr.
Qed.

(** X15.  A backslash followed by a line feed or a carriage return joins
    the two lines with nothing in between, whatever stands before and after;
    of a backslash followed by carriage return and line feed only the first
    two characters go, and the line feed stays. *)
Theorem mergeIntoSingleLine_continuation a b :
  CurlText.mergeIntoSingleLine (a +:+ String "\" (String "010" b))
  = CurlText.mergeIntoSingleLine a +:+ CurlText.mergeIntoSingleLine b
  ∧ CurlText.mergeIntoSingleLine (a +:+ String "\" (String "013" b))
    = CurlText.mergeIntoSingleLine a +:+ CurlText.mergeIntoSingleLine b
  ∧ CurlText.mergeIntoSingleLine
      (a +:+ String "\" (String "013" (String "010" b)))
    = CurlText.mergeIntoSingleLine a
      +:+ String "010" (CurlText.mergeIntoSingleLine b).
Proof.
  rewrite !mergeIntoSingleLine_app by done.
  split; [done|]. split; [done|]. f_equal. by destruct b.
Qed.

(** X16.  Text without a backslash comes out of [mergeIntoSingleLine]
    unchanged; in particular plain line breaks are kept. *)
Theorem mergeIntoSingleLine_no_backslash text :
  includes text "\" = false → CurlText.mergeIntoSingleLine text = text.
Proof.
  induction text as [|c rest IH]; [done|]. intros Hi.
  simpl in Hi. apply orb_false_iff in Hi as [Hc Hrest].
  destruct rest as [|d rest']; [done|].
  change (CurlText.mergeIntoSingleLine (String c (String d rest')))
    with (if bool_decide (c = "\"%char) && CurlText.is_line_break d
          then CurlText.mergeIntoSingleLine rest'
          else String c (CurlText.mergeIntoSingleLine (String d rest'))).
  rewrite Hc. simpl andb. by rewrite (IH Hrest).
Qed.

Lemma mergeIntoSingleLine_no_backslash_witness :
  CurlText.mergeIntoSingleLine
    ("curl http://host" +:+ String "010" "-H 'A: b'")
  = "curl http://host" +:+ String "010" "-H 'A: b'".
Proof.
  apply mergeIntoSingleLine_no_backslash. vm_compute. reflexivity.
Defined.

Lemma merge_spaces_start s :
  starts_with_space (CurlText.merge_spaces false s) = starts_with_space s.
Proof.
  destruct s as [|c [|d r]]; try done.
  change (CurlText.merge_spaces false (String c (String d r)))
    with (if is_space c && is_space d
          then String " " (CurlText.merge_spaces true (String d r))
          else String c (CurlText.merge_spaces false (String d r))).
  destruct (is_space c) eqn:Hc, (is_space d); simpl; by rewrite ?Hc.
Qed.

Lemma adjacent_spaces_cons c r :
  adjacent_spaces (String c r)
  = (is_space c && starts_with_space r) || adjacent_spaces r.
Proof. done. Qed.

Lemma merge_spaces_adjacent s :
  adjacent_spaces (CurlText.merge_spaces false s) = false
  ∧ adjacent_spaces (CurlText.merge_spaces true s) = false
  ∧ starts_with_space (CurlText.merge_spaces true s) = false.
Proof.
  induction s as [|c rest (IHf & IHt & IHs)]; [done|].
  split; [|split].
  - destruct rest as [|d r]; [simpl; by rewrite andb_false_r|].
    change (CurlText.merge_spaces false (String c (String d r)))
      with (if is_space c && is_space d
            then String " " (CurlText.merge_spaces true (String d r))
            else String c (CurlText.merge_spaces false (String d r))).
    destruct (is_space c && is_space d) eqn:E.
    + rewrite adjacent_spaces_cons, IHs, IHt. by rewrite andb_false_r.
    + rewrite adjacent_spaces_cons, merge_spaces_start, IHf. simpl.
      by rewrite E.
  - change (CurlText.merge_spaces true (String c rest))
      with (if is_space c then CurlText.merge_spaces true rest
            else String c (CurlText.merge_spaces false rest)).
    destruct (is_space c) eqn:Hc; [done|].
    by rewrite adjacent_spaces_cons, Hc, IHf.
  - change (CurlText.merge_spaces true (String c rest))
      with (if is_space c then CurlText.merge_spaces true rest
            else String c (CurlText.merge_spaces false rest)).
    destruct (is_space c) eqn:Hc; [done|]. done.
Qed.

(** X17.  After [mergeMultipleSpacesIntoSingle] no two white-space
    characters stand side by side; so the text handed to the argument parser
    has none either. *)
Theorem mergeMultipleSpacesIntoSingle_no_adjacent text :
  adjacent_spaces (CurlText.mergeMultipleSpacesIntoSingle text) = false
  ∧ adjacent_spaces (CurlText.requestText text) = false.
Proof.
  split; apply merge_spaces_adjacent.
Qed.

(** X18.  Text in which no two white-space characters stand side by side is
    left unchanged, single tabs and line breaks included; so folding the
    spaces a second time changes nothing. *)
Theorem mergeMultipleSpacesIntoSingle_fixed text :
  (adjacent_spaces text = false →
   CurlText.mergeMultipleSpacesIntoSingle text = text)
  ∧ CurlText.mergeMultipleSpacesIntoSingle
      (CurlText.mergeMultipleSpacesIntoSingle text)
    = CurlText.mergeMultipleSpacesIntoSingle text.
Proof.
  assert (∀ s, adjacent_spaces s = false → CurlText.merge_spaces false s = s)
    as Hfix.
  { induction s as [|c rest IH]; [done|]. intros Ha.
    simpl in Ha. apply orb_false_iff in Ha as [Hcd Hrest].
    destruct rest as [|d r]; [done|].
    change (CurlText.merge_spaces false (String c (String d r)))
      with (if is_space c && is_space d
            then String " " (CurlText.merge_spaces true (String d r))
            else String c (CurlText.merge_spaces false (String d r))).
    simpl in Hcd. rewrite Hcd. by rewrite (IH Hrest). }
  split; [apply Hfix|]. apply Hfix, merge_spaces_adjacent.
Qed.

Lemma mergeMultipleSpacesIntoSingle_fixed_witness :
  CurlText.mergeMultipleSpacesIntoSingle ("curl -s" +:+ String "009" "http://h")
  = "curl -s" +:+ String "009" "http://h".
Proof.
  destruct (mergeMultipleSpacesIntoSingle_fixed
              ("curl -s" +:+ String "009" "http://h")) as [Hfix _].
  apply Hfix. vm_compute. reflexivity.
Defined.

(** ** Client certificates *)

Section certificates.
Context `{Platform} `{Certificate.Files}.

(** X19.  [resolveCertificateFullPath] returns a path only if that path
    exists, and then shows no warning; an absolute path is returned as it
    is.  When it returns nothing it has shown exactly one warning, naming the
    configured path.  It throws only for a relative path when there is
    neither a workspace root nor an active editor. *)
Theorem resolveCertificateFullPath_outcome absoluteOrRelativePath certName ws r :
  Certificate.resolveCertificateFullPath absoluteOrRelativePath certName
  = (ws, r) →
  match r with
  | Ok (Some resolved) =>
      Certificate.fs_existsSync resolved = true ∧ ws = []
      ∧ (Certificate.path_isAbsolute absoluteOrRelativePath = true →
         resolved = absoluteOrRelativePath)
  | Ok None =>
      ws = [Certificate.missing_path_warning absoluteOrRelativePath certName]
  | Throw _ =>
      ws = []
      ∧ Certificate.path_isAbsolute absoluteOrRelativePath = false
      ∧ truthy Certificate.workspace_rootPath = false
      ∧ Certificate.activeTextEditor_fileName = None
  end.
Proof.
  unfold Certificate.resolveCertificateFullPath, Certificate.ret.
  destruct (Certificate.path_isAbsolute absoluteOrRelativePath) eqn:Habs.
  - destruct (Certificate.fs_existsSync absoluteOrRelativePath) eqn:Hex;
      simpl; intros [= <- <-]; done.
  - destruct Certificate.workspace_rootPath as [root|] eqn:Hroot.
    + destruct (truthy (Some root)) eqn:Ht.
      * destruct (Certificate.fs_existsSync _) eqn:Hex;
          intros [= <- <-]; done.
      * destruct Certificate.activeTextEditor_fileName as [fileName|];
          [|intros [= <- <-]; done].
        destruct (Certificate.fs_existsSync _) eqn:Hex;
          intros [= <- <-]; done.
    + destruct Certificate.activeTextEditor_fileName as [fileName|];
        [|intros [= <- <-]; done].
      destruct (Certificate.fs_existsSync _) eqn:Hex;
        intros [= <- <-]; done.
Qed.

Lemma and_then_Ok {A B} (m : Certificate.Effect A)
    (k : A → Certificate.Effect B) ws b :
  Certificate.and_then m k = (ws, Ok b) →
  ∃ ws1 a ws2, m = (ws1, Ok a) ∧ k a = (ws2, Ok b) ∧ ws = ws1 ++ ws2.
Proof.
  destruct m as [ws1 [a|e]]; simpl; [|done].
  destruct (k a) as [ws2 r] eqn:Hk. intros [= <- ->].
  by exists ws1, a, ws2.
Qed.

Lemma load_Some configured certName ws bytes :
  Certificate.load configured certName = (ws, Ok (Some bytes)) →
  ∃ configuredPath certPath,
    configured = Some configuredPath
    ∧ Certificate.resolveCertificateFullPath configuredPath certName
      = ([], Ok (Some certPath))
    ∧ Certificate.fs_existsSync certPath = true
    ∧ Certificate.fs_readFileSync certPath = Ok bytes.
Proof.
  unfold Certificate.load, Certificate.ret.
  destruct configured as [p|]; [|done].
  destruct (truthy (Some p)); [|done].
  intros Hl. apply and_then_Ok in Hl as (ws1 & resolved & ws2 & Hr & Hk & _).
  pose proof (resolveCertificateFullPath_outcome _ _ _ _ Hr) as Hout.
  destruct resolved as [q|]; [|done].
  destruct (truthy (Some q)); [|done].
  destruct Hout as (Hex & -> & _).
  destruct (Certificate.fs_readFileSync q) as [b|e] eqn:Hread; [|done].
  injection Hk as _ ->. by exists p, q.
Qed.

(** X20.  What [getRequestCertificate] returns was read from the files the
    settings name: each of [cert], [key] and [pfx] that is set holds the
    content of the existing file to which [resolveCertificateFullPath]
    resolves the path the entry of the host gives for that very field; the
    passphrase is the one of the entry.  Without an entry under the key of
    the host the identity is empty and nothing is shown. *)
Theorem getRequestCertificate_loaded hostCertificates requestUrl ws c :
  Certificate.getRequestCertificate hostCertificates requestUrl = (ws, Ok c) →
  let loaded (configured : Certificate.HostCertificatePaths → option string)
             (certName : string) (field : option (list byte)) :=
    ∀ bytes, field = Some bytes →
      ∃ entry configuredPath certPath,
        hostCertificates !! Certificate.host_key (url_parse requestUrl)
        = Some entry
        ∧ configured entry = Some configuredPath
        ∧ Certificate.resolveCertificateFullPath configuredPath certName
          = ([], Ok (Some certPath))
        ∧ Certificate.fs_existsSync certPath = true
        ∧ Certificate.fs_readFileSync certPath = Ok bytes in
  loaded Certificate.path_cert "cert" (cert c)
  ∧ loaded Certificate.path_key "key" (key c)
  ∧ loaded Certificate.path_pfx "pfx" (pfx c)
  ∧ (∀ entry,
       hostCertificates !! Certificate.host_key (url_parse requestUrl)
       = Some entry →
       passphrase c = Certificate.path_passphrase entry)
  ∧ (hostCertificates !! Certificate.host_key (url_parse requestUrl) = None →
     ws = [] ∧ c = no_certificate).
Proof.
  unfold Certificate.getRequestCertificate.
  destruct (hostCertificates !! Certificate.host_key (url_parse requestUrl))
    as [entry|] eqn:Hentry.
  - intros Hg.
    apply and_then_Ok in Hg as (w1 & vcert & w1' & Hcert & Hg & _).
    apply and_then_Ok in Hg as (w2 & vkey & w2' & Hkey & Hg & _).
    apply and_then_Ok in Hg as (w3 & vpfx & w3' & Hpfx & Hg & _).
    injection Hg as _ <-. simpl.
    repeat split.
    + intros bytes ->. apply load_Some in Hcert as (p & q & ? & ? & ? & ?).
      by exists entry, p, q.
    + intros bytes ->. apply load_Some in Hkey as (p & q & ? & ? & ? & ?).
      by exists entry, p, q.
    + intros bytes ->. apply load_Some in Hpfx as (p & q & ? & ? & ? & ?).
      by exists entry, p, q.
    + by intros ? [= <-].
    + done.
    + done.
  - intros [= <- <-]. simpl. repeat split; done.
Qed.

Lemma load_total configured certName :
  truthy Certificate.workspace_rootPath = true
  ∨ is_Some Certificate.activeTextEditor_fileName →
  (∀ p, Certificate.fs_existsSync p = true →
        ∃ bytes, Certificate.fs_readFileSync p = Ok bytes) →
  ∃ ws v, Certificate.load configured certName = (ws, Ok v)
          ∧ (length ws ≤ 1)%nat.
Proof.
  intros Hopen Hread. unfold Certificate.load, Certificate.ret.
  destruct configured as [p|]; [|eexists _, _; split; [done | simpl; lia]].
  destruct (truthy (Some p)); [|eexists _, _; split; [done | simpl; lia]].
  destruct (Certificate.resolveCertificateFullPath p certName)
    as [ws r] eqn:Hr.
  pose proof (resolveCertificateFullPath_outcome _ _ _ _ Hr) as Hout.
  simpl. destruct r as [[q|]|e].
  - destruct Hout as (Hex & -> & _).
    destruct (truthy (Some q)); [|eexists _, _; split; [done | simpl; lia]].
    destruct (Hread q Hex) as [bytes ->].
    eexists _, _; split; [done | simpl; lia].
  - subst ws. eexists _, _; split; [done | simpl; lia].
  - destruct Hout as (_ & _ & Hroot & Hed). destruct Hopen as [Ho|[? Ho]];
      congruence.
Qed.

(** X21.  A certificate file that is missing is not fatal.  When a
    workspace is open or an editor is active, and every file that exists can
    be read, [getRequestCertificate] returns an identity for every URL and
    every settings table, having shown at most three warnings. *)
Theorem getRequestCertificate_not_fatal hostCertificates requestUrl :
  truthy Certificate.workspace_rootPath = true
  ∨ is_Some Certificate.activeTextEditor_fileName →
  (∀ p, Certificate.fs_existsSync p = true →
        ∃ bytes, Certificate.fs_readFileSync p = Ok bytes) →
  ∃ ws c,
    Certificate.getRequestCertificate hostCertificates requestUrl = (ws, Ok c)
    ∧ (length ws ≤ 3)%nat.
Proof.
  intros Hopen Hread. unfold Certificate.getRequestCertificate.
  destruct (hostCertificates !! Certificate.host_key (url_parse requestUrl))
    as [entry|]; [|eexists _, _; split; [done | simpl; lia]].
  destruct (load_total (Certificate.path_cert entry) "cert" Hopen Hread)
    as (w1 & v1 & -> & Hw1).
  destruct (load_total (Certificate.path_key entry) "key" Hopen Hread)
    as (w2 & v2 & -> & Hw2).
  destruct (load_total (Certificate.path_pfx entry) "pfx" Hopen Hread)
    as (w3 & v3 & -> & Hw3).
  simpl. eexists _, _. split; [done|]. rewrite !length_app. simpl. lia.
Qed.

End certificates.

Lemma resolveCertificateFullPath_outcome_witness :
  Certificate.fs_existsSync (Files := Certificate.sample_files)
    "/work/certs/client.crt" = true.
Proof.
  pose proof (@resolveCertificateFullPath_outcome Certificate.sample_files
                "certs/client.crt" "cert" []
                (Ok (Some "/work/certs/client.crt"))) as Hout.
  simpl in Hout. apply Hout. vm_compute. reflexivity.
Defined.

Lemma getRequestCertificate_loaded_witness :
  ∃ certPath,
    Certificate.fs_existsSync (Files := Certificate.sample_files) certPath
    = true
    ∧ Certificate.fs_readFileSync (Files := Certificate.sample_files) certPath
      = Ok [x01; x02].
Proof.
  destruct (@getRequestCertificate_loaded sample_platform
              Certificate.sample_files Certificate.sample_hostCertificates
              "https://example.com:8443/x"
              [Certificate.missing_path_warning "certs/missing.pfx" "pfx"]
              {| cert := Some [x01; x02]; key := Some [x03]; pfx := None;
                 passphrase := Some "secret" |})
    as (Hcert & _).
  - vm_compute. reflexivity.
  - destruct (Hcert [x01; x02] eq_refl)
      as (_ & _ & q & _ & _ & _ & Hex & Hread).
    exists q. split; [exact Hex | exact Hread].
Defined.

Lemma getRequestCertificate_not_fatal_witness :
  ∃ ws c,
    @Certificate.getRequestCertificate sample_platform Certificate.sample_files
      Certificate.sample_hostCertificates "https://example.com:8443/x"
    = (ws, Ok c)
    ∧ (length ws ≤ 3)%nat.
Proof.
  apply (@getRequestCertificate_not_fatal sample_platform
           Certificate.sample_files).
  - left. reflexivity.
  - intros p Hp. simpl in Hp. apply bool_decide_eq_true in Hp as [->| ->];
      eexists; reflexivity.
Defined.

(** ** The keys of the adjusted headers *)

(** X22.  When every key of the transport's headers is lower-case, is not
    [__proto__], and is the lower-case form of some element of the raw list,
    every key of the adjusted headers is an element of the raw list: the
    response shows only spellings the server sent. *)
Theorem send_adjustHeaders_keys_raw headers rawHeaders k v :
  Forall (fun h => toLowerCase h = h ∧ h ≠ "__proto__"
                   ∧ ∃ raw, raw ∈ rawHeaders ∧ toLowerCase raw = h)
         (keys headers) →
  send_adjustHeaders headers rawHeaders !! k = Some v →
  k ∈ rawHeaders.
Proof.
  intros Hkeys Hl.
  assert (transport_keys rawHeaders headers) as Htk.
  { eapply Forall_impl; [exact Hkeys|]. intros h (? & ? & ?).
    split; [done|]. split; [done | by left]. }
  destruct (adjusted_origin _ _ _ _ Htk Hl) as (h & Hh & _ & Hrn & _).
  rewrite Forall_forall in Hkeys.
  destruct (Hkeys h Hh) as (_ & Hp & raw & Hraw & Hrl).
  destruct (rawHeaderNames_some _ _ _ Hp Hraw Hrl) as [name Hname].
  destruct (rawHeaderNames_lower _ _ _ Hname) as (Hnl & Hnin & _).
  unfold restored_name, plain_read in Hrn. rewrite Hname in Hrn.
  destruct name as [|c r]; simpl in Hrn, Hnl.
  - rewrite <- Hrn, <- Hnl. exact Hnin.
  - by rewrite <- Hrn.
Qed.

Lemma send_adjustHeaders_keys_raw_witness :
  "Content-Type" ∈ ["X-Custom-Id"; "42"; "Content-Type"; "text/plain"].
Proof.
  apply (send_adjustHeaders_keys_raw
           [("x-custom-id", "42"); ("content-type", "text/plain")]
           ["X-Custom-Id"; "42"; "Content-Type"; "text/plain"]
           "Content-Type" "text/plain").
  - apply List.Forall_cons; [|apply List.Forall_cons; [|apply List.Forall_nil]].
    + split; [reflexivity|]. split; [discriminate|].
      exists "X-Custom-Id". split; [apply list_elem_of_here | reflexivity].
    + split; [reflexivity|]. split; [discriminate|].
      exists "Content-Type". split; [|reflexivity].
      do 2 apply list_elem_of_further. apply list_elem_of_here.
  - vm_compute. reflexivity.
Defined.
